(** * Neurox: the streaming completion relay of [/app/api/chat/route.ts]

    A shallow embedding of the [POST] handler: the message normaliser
    (the [preparedMessages] loop), the error mapping of the outer [catch],
    the [ReadableStream] underlying source ([start] / [cancel]) and the
    per-request timer and [AbortController].

    The handler is an [async] function: between two [await]s it runs to
    completion, and what it awaits is settled by the environment.  It is
    embedded as a transition function [step] over an explicit request
    state, driven by the events the environment can deliver (the body
    promise settles, the [create] promise settles, the upstream iterator
    yields, the deadline elapses, the consumer reads or cancels). *)

From Stdlib Require Import List String Ascii NArith PeanoNat Bool Lia.
From Stdlib.Strings Require Import Byte.
Import ListNotations.
Open Scope N_scope.

(* ===================================================================== *)
(** ** JavaScript strings *)
(* ===================================================================== *)

Module JS.

(** A JS string is a sequence of UTF-16 code units. *)
Definition code_unit := N.
Definition jsstring := list code_unit.

(** String literals of the source, written as Rocq strings. *)
Definition lit (s : string) : jsstring :=
  map N_of_ascii (list_ascii_of_string s).

(** Truthiness of a string: the empty string is falsy, everything else truthy. *)
Definition truthy (s : jsstring) : bool :=
  match s with [] => false | _ :: _ => true end.

(** Truthiness of an optional string property ([undefined] is falsy). *)
Definition truthy_opt (o : option jsstring) : bool :=
  match o with Some s => truthy s | None => false end.

(** [a || b] on strings. *)
Definition or_else (a b : jsstring) : jsstring :=
  if truthy a then a else b.

(** ECMAScript WhiteSpace and LineTerminator code units, the ones
    [String.prototype.trim] strips. *)
Definition is_ws (c : code_unit) : bool :=
  (c =? 9) || (c =? 10) || (c =? 11) || (c =? 12) || (c =? 13) ||
  (c =? 32) || (c =? 160) || (c =? 5760) ||
  ((8192 <=? c) && (c <=? 8202)) ||
  (c =? 8232) || (c =? 8233) || (c =? 8239) || (c =? 8287) ||
  (c =? 12288) || (c =? 65279).

Fixpoint trimStart (s : jsstring) : jsstring :=
  match s with
  | [] => []
  | c :: t => if is_ws c then trimStart t else s
  end.

Definition trimEnd (s : jsstring) : jsstring := rev (trimStart (rev s)).

Definition trim (s : jsstring) : jsstring := trimEnd (trimStart s).

Fixpoint startsWith (s p : jsstring) {struct p} : bool :=
  match p, s with
  | [], _ => true
  | _ :: _, [] => false
  | a :: p', b :: s' => (a =? b) && startsWith s' p'
  end.

(** [s.includes(sub)]. *)
Fixpoint includes (s sub : jsstring) : bool :=
  startsWith s sub ||
  match s with
  | [] => false
  | _ :: t => includes t sub
  end.

Definition str_eqb (a b : jsstring) : bool :=
  Nat.eqb (List.length a) (List.length b) && startsWith a b.

(** *** [TextEncoder.encode]: UTF-8 of the string's code points, an
    unpaired surrogate being replaced by U+FFFD. *)

Definition is_high (c : code_unit) : bool := (55296 <=? c) && (c <=? 56319).
Definition is_low (c : code_unit) : bool := (56320 <=? c) && (c <=? 57343).

Fixpoint code_points (s : jsstring) : list N :=
  match s with
  | [] => []
  | c :: t =>
      if is_high c then
        match t with
        | d :: t' =>
            if is_low d
            then (65536 + (c - 55296) * 1024 + (d - 56320)) :: code_points t'
            else 65533 :: code_points t
        | [] => [65533]
        end
      else if is_low c then 65533 :: code_points t
      else c :: code_points t
  end.

Definition to_byte (n : N) : byte :=
  match Byte.of_N n with Some b => b | None => x00 end.

Definition utf8 (cp : N) : list byte :=
  if cp <? 128 then [to_byte cp]
  else if cp <? 2048 then
    [to_byte (N.lor 192 (N.shiftr cp 6));
     to_byte (N.lor 128 (N.land cp 63))]
  else if cp <? 65536 then
    [to_byte (N.lor 224 (N.shiftr cp 12));
     to_byte (N.lor 128 (N.land (N.shiftr cp 6) 63));
     to_byte (N.lor 128 (N.land cp 63))]
  else
    [to_byte (N.lor 240 (N.shiftr cp 18));
     to_byte (N.lor 128 (N.land (N.shiftr cp 12) 63));
     to_byte (N.lor 128 (N.land (N.shiftr cp 6) 63));
     to_byte (N.lor 128 (N.land cp 63))].

Definition encode (s : jsstring) : list byte := flat_map utf8 (code_points s).

End JS.
Import JS.

(* ===================================================================== *)
(** ** The message normaliser (lines 13-25 and 60-101) *)
(* ===================================================================== *)

Module Normalizer.

Inductive Role := system | user | assistant.

Definition role_eqb (a b : Role) : bool :=
  match a, b with
  | system, system | user, user | assistant, assistant => true
  | _, _ => false
  end.

(** [interface ClientMessage]: [data] and each of its fields are optional. *)
Record FileData := {
  fileDataUrl : option jsstring;
  fileName : option jsstring;
  fileType : option jsstring
}.

Record ClientMessage := {
  role : Role;
  content : jsstring;
  data : option FileData
}.

(** The text-only shape of [ChatCompletionMessageParam] the handler builds. *)
Record SdkMessageParam := {
  sdk_role : Role;
  sdk_content : jsstring
}.

Definition systemMessageContent : jsstring :=
  lit "You are Neurox, a helpful and friendly AI assistant. Provide concise and accurate answers. If an image is mentioned, acknowledge it appropriately based on the context provided by its name.".

(** [message.data?.fileDataUrl] *)
Definition data_fileDataUrl (message : ClientMessage) : option jsstring :=
  match data message with
  | Some d => fileDataUrl d
  | None => None
  end.

(** Line 65: [!message.content && !message.data?.fileDataUrl]. *)
Definition skipped (message : ClientMessage) : bool :=
  negb (truthy (content message)) && negb (truthy_opt (data_fileDataUrl message)).

(** Line 69: [message.role === 'user' && message.data?.fileDataUrl &&
    message.data.fileName]; yields the [data] record the branch destructures. *)
Definition attachment_branch (message : ClientMessage) : option FileData :=
  match data message with
  | Some d =>
      if role_eqb (role message) user
         && truthy_opt (fileDataUrl d) && truthy_opt (fileName d)
      then Some d
      else None
  | None => None
  end.

(** An optional string interpolated in a template literal. *)
Definition interpolate (o : option jsstring) : jsstring :=
  match o with
  | Some s => s
  | None => lit "undefined"
  end.

(** Line 74: the template literal, a line feed first and the file name
    between double quotes (code unit 34). *)
Definition fileAcknowledgement (fileName : option jsstring) : jsstring :=
  [10] ++ lit "[User has attached an image: " ++ [34] ++ interpolate fileName
       ++ [34] ++ lit ". Please acknowledge this attachment.]".

(** Line 75. *)
Definition combinedText (message : ClientMessage) (d : FileData) : jsstring :=
  let userText := or_else (content message) [] in
  trim (trim userText ++ lit " " ++ trim (fileAcknowledgement (fileName d))).

(** Line 77: [fileType?.startsWith('image/')]. *)
Definition is_image (d : FileData) : bool :=
  match fileType d with
  | Some t => startsWith t (lit "image/")
  | None => false
  end.

(** Lines 67-99: the message pushed for one client message that is not
    skipped. *)
Definition currentSdkMessage (message : ClientMessage) : SdkMessageParam :=
  match attachment_branch message with
  | Some d =>
      if is_image d
      then {| sdk_role := user; sdk_content := combinedText message d |}
      else {| sdk_role := user; sdk_content := combinedText message d |}
  | None =>
      {| sdk_role := role message; sdk_content := content message |}
  end.

(** One iteration of the [for ... of] loop over [preparedMessages]. *)
Definition loop_body (preparedMessages : list SdkMessageParam)
    (message : ClientMessage) : list SdkMessageParam :=
  if skipped message then preparedMessages
  else preparedMessages ++ [currentSdkMessage message].

(** Lines 60-101. *)
Definition preparedMessages (clientMessages : list ClientMessage)
    : list SdkMessageParam :=
  fold_left loop_body clientMessages
    [{| sdk_role := system; sdk_content := systemMessageContent |}].

(** The two halves of the skip test, as the data model names them. *)
Definition has_content (message : ClientMessage) : bool :=
  truthy (content message).

Definition has_attachment (message : ClientMessage) : bool :=
  truthy_opt (data_fileDataUrl message).

End Normalizer.
Import Normalizer.

(* ===================================================================== *)
(** ** Platform objects the handler drives *)
(* ===================================================================== *)

(** What a [catch] clause can receive.  [err_class] records the two
    [instanceof] tests of the handler; [Together.APIError] extends [Error]
    and carries [status : number | undefined]. *)
Inductive ErrorClass :=
| NotAnError
| PlainError
| APIError (status : option N).

Record Thrown := {
  err_name : jsstring;
  err_message : jsstring;
  err_class : ErrorClass
}.

Definition instanceof_Error (e : Thrown) : bool :=
  match err_class e with
  | NotAnError => false
  | _ => true
  end.

Definition TypeError (message : string) : Thrown :=
  {| err_name := lit "TypeError"; err_message := lit message;
     err_class := PlainError |}.

Definition RangeError (message : string) : Thrown :=
  {| err_name := lit "RangeError"; err_message := lit message;
     err_class := PlainError |}.

Inductive Result (A : Type) :=
| Ok (a : A)
| Throw (e : Thrown).
Arguments Ok {A} a.
Arguments Throw {A} e.

(** *** [ReadableStream] with its default controller *)

Module Stream.

Inductive StreamState := Readable | Closed | Errored.

(** What the consumer can observe of the producer's calls. *)
Inductive StreamEvent :=
| Enqueued (chunk : list byte)
| CloseAccepted
| ErrorAccepted (e : Thrown)
| Cancelled.

Record t := {
  state : StreamState;
  closeRequested : bool;
  queue : list (list byte);
  log : list StreamEvent
}.

Definition fresh : t :=
  {| state := Readable; closeRequested := false; queue := []; log := [] |}.

Definition is_readable (st : t) : bool :=
  match state st with
  | Readable => true
  | _ => false
  end.

(** ReadableStreamDefaultControllerCanCloseOrEnqueue *)
Definition canCloseOrEnqueue (st : t) : bool :=
  is_readable st && negb (closeRequested st).

(** [controller.enqueue(chunk)] *)
Definition enqueue (chunk : list byte) (st : t) : Result t :=
  if canCloseOrEnqueue st then
    Ok {| state := state st; closeRequested := closeRequested st;
          queue := queue st ++ [chunk];
          log := log st ++ [Enqueued chunk] |}
  else Throw (TypeError "Invalid state: Controller is already closed").

(** [controller.close()]: the stream closes at once when nothing is
    queued, otherwise when the queue has drained. *)
Definition close (st : t) : Result t :=
  if canCloseOrEnqueue st then
    Ok {| state := match queue st with [] => Closed | _ :: _ => Readable end;
          closeRequested := true;
          queue := queue st;
          log := log st ++ [CloseAccepted] |}
  else Throw (TypeError "Invalid state: Controller is already closed").

(** [controller.error(e)]: nothing happens unless the stream is readable. *)
Definition error (e : Thrown) (st : t) : t :=
  if is_readable st then
    {| state := Errored; closeRequested := closeRequested st;
       queue := []; log := log st ++ [ErrorAccepted e] |}
  else st.

(** The consumer takes one chunk. *)
Definition read (st : t) : t :=
  if is_readable st then
    match queue st with
    | [] => st
    | _ :: q =>
        {| state := match q with
                    | [] => if closeRequested st then Closed else Readable
                    | _ :: _ => Readable
                    end;
           closeRequested := closeRequested st;
           queue := q; log := log st |}
    end
  else st.

(** The consumer cancels: [Some] when the underlying source's [cancel]
    callback is to run, which is only from the readable state. *)
Definition cancel (st : t) : option t :=
  if is_readable st then
    Some {| state := Closed; closeRequested := closeRequested st;
            queue := []; log := log st ++ [Cancelled] |}
  else None.

Definition is_termination (ev : StreamEvent) : bool :=
  match ev with
  | CloseAccepted | ErrorAccepted _ => true
  | _ => false
  end.

(** The termination events the producer caused. *)
Definition terminations (st : t) : list StreamEvent :=
  filter is_termination (log st).

(** The chunks the producer enqueued, in order. *)
Fixpoint enqueued_of (l : list StreamEvent) : list (list byte) :=
  match l with
  | [] => []
  | Enqueued chunk :: l' => chunk :: enqueued_of l'
  | _ :: l' => enqueued_of l'
  end.

Definition enqueued (st : t) : list (list byte) := enqueued_of (log st).

End Stream.

(** *** Completion chunks of the upstream SDK *)

Inductive FinishReason :=
| FinishStop | FinishEos | FinishLength | FinishToolCalls | FinishFunctionCall.

Record Delta := { delta_content : option jsstring }.

Record Choice := {
  delta : option Delta;
  finish_reason : option FinishReason
}.

Record ChatCompletionChunk := { choices : option (list Choice) }.

(** [chunk.choices?.[0]?.delta?.content] *)
Definition contentDelta (chunk : ChatCompletionChunk) : option jsstring :=
  match choices chunk with
  | Some (c :: _) =>
      match delta c with
      | Some d => delta_content d
      | None => None
      end
  | _ => None
  end.

(** [chunk.choices?.[0]?.finish_reason] *)
Definition chunk_finish_reason (chunk : ChatCompletionChunk)
    : option FinishReason :=
  match choices chunk with
  | Some (c :: _) => finish_reason c
  | _ => None
  end.

Definition has_finish_reason (chunk : ChatCompletionChunk) : bool :=
  match chunk_finish_reason chunk with
  | Some _ => true
  | None => false
  end.

(** *** The request body as [request.json()] resolves it *)

(** Values of the [messages] property that are not arrays; [JUndefined]
    is the missing property.  A number is kept up to what [!x] can tell:
    [JNumber 0] is zero, any other [JNumber n] a non-zero number. *)
Inductive NonArray :=
| JUndefined
| JNull
| JBool (b : bool)
| JNumber (n : N)
| JString (s : jsstring)
| JObject.

Inductive MessagesField :=
| NotArray (v : NonArray)
| IsArray (elements : list ClientMessage).

(** The parsed body: [null], from which no property can be read, or any
    other JSON value, of which only the [messages] property is read. *)
Inductive ParsedBody :=
| BodyNull
| BodyValue (messages : MessagesField).

Definition truthy_field (f : MessagesField) : bool :=
  match f with
  | NotArray JUndefined | NotArray JNull => false
  | NotArray (JBool b) => b
  | NotArray (JNumber n) => negb (n =? 0)
  | NotArray (JString s) => truthy s
  | NotArray JObject => true
  | IsArray _ => true
  end.

Definition isArray (f : MessagesField) : bool :=
  match f with
  | IsArray _ => true
  | NotArray _ => false
  end.

Definition elements_of (f : MessagesField) : list ClientMessage :=
  match f with
  | IsArray ms => ms
  | NotArray _ => []
  end.

(** Line 54: [!clientMessages || !Array.isArray(clientMessages) ||
    clientMessages.length === 0]. *)
Definition invalid_messages (clientMessages : MessagesField) : bool :=
  negb (truthy_field clientMessages) || negb (isArray clientMessages) ||
  Nat.eqb (List.length (elements_of clientMessages)) 0.

(** Line 52: destructuring [{ messages: clientMessages }]. *)
Definition destructure (b : ParsedBody) : Result MessagesField :=
  match b with
  | BodyNull =>
      Throw (TypeError "Cannot destructure property 'messages' of '(intermediate value)' as it is null.")
  | BodyValue f => Ok f
  end.

(* ===================================================================== *)
(** ** The [POST] handler *)
(* ===================================================================== *)

Record Response := {
  status : N;
  headers : list (string * string);
  body : option jsstring   (* [None]: the body is the readable stream *)
}.

Definition text_response (text : jsstring) (code : N) : Response :=
  {| status := code; headers := []; body := Some text |}.

(** Lines 170-176. *)
Definition stream_response : Response :=
  {| status := 200;
     headers := [("Content-Type", "text/plain; charset=utf-8");
                 ("X-Content-Type-Options", "nosniff");
                 ("Cache-Control", "no-cache, no-transform")]%string;
     body := None |}.

Definition API_CALL_TIMEOUT_MS : N := 55000.

(** The argument of [client.chat.completions.create]. *)
Record CompletionRequest := {
  model : jsstring;
  messages : list SdkMessageParam;
  stream_flag : bool
}.

(** [timeoutId] is the variable (true: it holds a timer id); [pending]
    tells whether the timer is still scheduled. *)
Record Timer := {
  timeoutId : bool;
  pending : bool
}.

Record AbortController := {
  aborted : bool;
  reason : option jsstring;
  abort_calls : list jsstring
}.

(** Where the handler is suspended. *)
Inductive Phase :=
| AwaitingBody        (* line 52, [await request.json()] *)
| AwaitingUpstream    (* line 109, [await ...create(...)] *)
| Streaming           (* line 140, [for await] waits for the next chunk *)
| Finished.           (* no continuation of the handler is left *)

Record State := {
  phase : Phase;
  response : option Response;
  timer : Timer;
  abortController : AbortController;
  body_reads : nat;
  upstream_requests : list CompletionRequest;
  stream : option Stream.t;
  streamClosed : bool;
  rejection : option Thrown   (* what the promise of [POST] rejected with *)
}.

Definition set_phase (p : Phase) (s : State) : State :=
  {| phase := p; response := response s; timer := timer s;
     abortController := abortController s; body_reads := body_reads s;
     upstream_requests := upstream_requests s; stream := stream s;
     streamClosed := streamClosed s; rejection := rejection s |}.

Definition set_response (r : Response) (s : State) : State :=
  {| phase := phase s; response := Some r; timer := timer s;
     abortController := abortController s; body_reads := body_reads s;
     upstream_requests := upstream_requests s; stream := stream s;
     streamClosed := streamClosed s; rejection := rejection s |}.

Definition set_timer (t : Timer) (s : State) : State :=
  {| phase := phase s; response := response s; timer := t;
     abortController := abortController s; body_reads := body_reads s;
     upstream_requests := upstream_requests s; stream := stream s;
     streamClosed := streamClosed s; rejection := rejection s |}.

Definition set_abortController (a : AbortController) (s : State) : State :=
  {| phase := phase s; response := response s; timer := timer s;
     abortController := a; body_reads := body_reads s;
     upstream_requests := upstream_requests s; stream := stream s;
     streamClosed := streamClosed s; rejection := rejection s |}.

Definition set_upstream_requests (l : list CompletionRequest) (s : State)
    : State :=
  {| phase := phase s; response := response s; timer := timer s;
     abortController := abortController s; body_reads := body_reads s;
     upstream_requests := l; stream := stream s;
     streamClosed := streamClosed s; rejection := rejection s |}.

Definition set_stream (st : Stream.t) (s : State) : State :=
  {| phase := phase s; response := response s; timer := timer s;
     abortController := abortController s; body_reads := body_reads s;
     upstream_requests := upstream_requests s; stream := Some st;
     streamClosed := streamClosed s; rejection := rejection s |}.

Definition set_streamClosed (b : bool) (s : State) : State :=
  {| phase := phase s; response := response s; timer := timer s;
     abortController := abortController s; body_reads := body_reads s;
     upstream_requests := upstream_requests s; stream := stream s;
     streamClosed := b; rejection := rejection s |}.

Definition set_rejection (e : Thrown) (s : State) : State :=
  {| phase := phase s; response := response s; timer := timer s;
     abortController := abortController s; body_reads := body_reads s;
     upstream_requests := upstream_requests s; stream := stream s;
     streamClosed := streamClosed s; rejection := Some e |}.

(** [abortController.abort(reason)]: the signal keeps its first reason. *)
Definition abort (r : jsstring) (a : AbortController) : AbortController :=
  {| aborted := true;
     reason := if aborted a then reason a else Some r;
     abort_calls := abort_calls a ++ [r] |}.

(** [if (timeoutId) clearTimeout(timeoutId)] *)
Definition clearTimeout_if_set (s : State) : State :=
  if timeoutId (timer s)
  then set_timer {| timeoutId := timeoutId (timer s); pending := false |} s
  else s.

(** The null body statuses of the Fetch standard. *)
Definition null_body_status (code : N) : bool :=
  (code =? 101) || (code =? 103) || (code =? 204) || (code =? 205) ||
  (code =? 304).

(** [new NextResponse(text, { status })].  [NextResponse] extends the
    platform's [Response]; its constructor reads [status] as a WebIDL
    [unsigned short] (the number modulo 2^16), throws a [RangeError] when
    that is not in 200..599, and a [TypeError] when a body is given with a
    null body status.  [text] is a string, so a body is always given.  The
    standard fixes the class of the two errors, not their messages. *)
Definition new_NextResponse (text : jsstring) (code : N) : Result Response :=
  let code := code mod 65536 in
  if (code <? 200) || (599 <? code) then
    Throw (RangeError "init.status must be in the range of 200 to 599, inclusive.")
  else if null_body_status code then
    Throw (TypeError "Response constructor: Invalid response status code")
  else Ok (text_response text code).

(** [return new NextResponse(text, { status })] with one of the constant
    statuses 400, 500 and 504, which the constructor accepts. *)
Definition respond (text : jsstring) (code : N) (s : State) : State :=
  set_phase Finished (set_response (text_response text code) s).

(** An exception leaves [POST]: its promise rejects and no response is
    returned. *)
Definition reject (e : Thrown) (s : State) : State :=
  set_phase Finished (set_rejection e s).

(** [return new NextResponse(text, { status })] in the [catch] clause with
    a status that is not a constant: what the constructor throws leaves
    the handler. *)
Definition respond_or_reject (text : jsstring) (code : N) (s : State)
    : State :=
  match new_NextResponse text code with
  | Ok r => set_phase Finished (set_response r s)
  | Throw e => reject e s
  end.

(** [error.status || 500] *)
Definition status_or_500 (st : option N) : N :=
  match st with
  | Some n => if n =? 0 then 500 else n
  | None => 500
  end.

(** Line 181. *)
Definition is_abort_error (error : Thrown) : bool :=
  str_eqb (err_name error) (lit "AbortError") ||
  (instanceof_Error error &&
   includes (err_message error) (lit "The operation was aborted")).

(** Lines 178-198: the [catch] of the handler's outer [try]. *)
Definition outer_catch (error : Thrown) (s : State) : State :=
  let s := clearTimeout_if_set s in
  if is_abort_error error then
    respond (lit "The request to the AI service timed out.") 504 s
  else
    match err_class error with
    | APIError st =>
        respond_or_reject
          (lit "AI Service Error: " ++
           or_else (err_message error)
                   (lit "An error occurred with the AI service."))
          (status_or_500 st) s
    | PlainError =>
        respond (lit "Error processing request: " ++ err_message error) 500 s
    | NotAnError =>
        respond (lit "Error processing request: " ++ lit "Unknown server error")
                500 s
    end.

(** Lines 32-50: the handler up to its first [await].  [apiKey] is
    [process.env.TOGETHER_API_KEY], [None] when the variable is unset. *)
Definition POST (apiKey : option jsstring) : State :=
  let s0 :=
    {| phase := Finished; response := None;
       timer := {| timeoutId := false; pending := false |};
       abortController := {| aborted := false; reason := None;
                             abort_calls := [] |};
       body_reads := 0; upstream_requests := [];
       stream := None; streamClosed := false; rejection := None |} in
  if negb (truthy_opt apiKey) then
    respond (lit "API key not configured") 500 s0
  else
    {| phase := AwaitingBody; response := None;
       timer := {| timeoutId := true; pending := true |};
       abortController := {| aborted := false; reason := None;
                             abort_calls := [] |};
       body_reads := 1; upstream_requests := [];
       stream := None; streamClosed := false; rejection := None |}.

(** Lines 44-49: the timer's callback. *)
Definition on_timeout (s : State) : State :=
  set_abortController (abort (lit "API Call Timeout") (abortController s))
    (set_timer {| timeoutId := timeoutId (timer s); pending := false |} s).

Inductive Settled (A : Type) :=
| Resolved (a : A)
| Rejected (e : Thrown).
Arguments Resolved {A} a.
Arguments Rejected {A} e.

(** Lines 52-116: from the settled body promise to the [create] call. *)
Definition after_body (r : Settled ParsedBody) (s : State) : State :=
  match r with
  | Rejected e => outer_catch e s
  | Resolved b =>
      match destructure b with
      | Throw e => outer_catch e s
      | Ok clientMessages =>
          if invalid_messages clientMessages then
            respond (lit "Invalid request body: 'messages' array is required and cannot be empty.")
                    400 (clearTimeout_if_set s)
          else
            set_phase AwaitingUpstream
              (set_upstream_requests
                 (upstream_requests s ++
                  [{| model := lit "deepseek-ai/DeepSeek-R1-Distill-Llama-70B-free";
                      messages := preparedMessages (elements_of clientMessages);
                      stream_flag := true |}])
                 s)
      end
  end.

(** Lines 118-176: [create] resolved; the timer is cleared, the readable
    stream is built (its [start] runs up to the first [await]) and the
    response is returned. *)
Definition after_create (r : Settled unit) (s : State) : State :=
  match r with
  | Rejected e => outer_catch e s
  | Resolved _ =>
      let s := clearTimeout_if_set s in
      let s := set_timer {| timeoutId := false; pending := pending (timer s) |} s in
      let s := set_streamClosed false (set_stream Stream.fresh s) in
      set_phase Streaming (set_response stream_response s)
  end.

(** Lines 129-136. *)
Definition closeStream (s : State) : State :=
  if negb (streamClosed s) then
    let s :=
      match stream s with
      | Some st =>
          match Stream.close st with
          | Ok st' => set_stream st' s
          | Throw _ => s       (* ignore if already closed *)
          end
      | None => s
      end in
    set_streamClosed true s
  else s.

(** Lines 151-157: the [catch] inside [start]. *)
Definition inner_catch (error : Thrown) (s : State) : State :=
  if str_eqb (err_name error) (lit "AbortError") then s
  else
    match stream s with
    | Some st => set_stream (Stream.error error st) s
    | None => s
    end.

(** [finally { closeStream(); }], after which [start] has returned.  Leaving
    the loop by [break] also closes the upstream iterator (its [return()]),
    which touches nothing of the request state. *)
Definition finally_close (s : State) : State :=
  set_phase Finished (closeStream s).

(** Lines 141-149: the body of the [for await] loop for one chunk. *)
Definition loop_chunk (chunk : ChatCompletionChunk) (s : State) : State :=
  let enq :=
    match contentDelta chunk, stream s with
    | Some d, Some st =>
        if truthy d then
          match Stream.enqueue (encode d) st with
          | Ok st' => Ok (set_stream st' s)
          | Throw e => Throw e
          end
        else Ok s
    | _, _ => Ok s
    end in
  match enq with
  | Throw e => finally_close (inner_catch e s)
  | Ok s' =>
      if has_finish_reason chunk
      then finally_close s'          (* break *)
      else s'                        (* wait for the next chunk *)
  end.

(** What the upstream iterator's [next()] settles to. *)
Inductive Next :=
| Yield (chunk : ChatCompletionChunk)
| Done
| Raise (e : Thrown).

Definition after_next (n : Next) (s : State) : State :=
  match n with
  | Yield chunk => loop_chunk chunk s
  | Done => finally_close s
  | Raise e => finally_close (inner_catch e s)
  end.

(** Lines 162-167: the [cancel] callback of the underlying source. *)
Definition cancel_callback (s : State) : State :=
  if negb (aborted (abortController s))
  then set_abortController
         (abort (lit "Client cancelled stream") (abortController s)) s
  else s.

Inductive Event :=
| DeadlineElapsed                          (* [API_CALL_TIMEOUT_MS] after [POST] began *)
| BodySettled (r : Settled ParsedBody)     (* [request.json()] settles *)
| CreateSettled (r : Settled unit)         (* [create(...)] settles *)
| UpstreamNext (n : Next)                  (* the upstream iterator answers *)
| ConsumerRead                             (* the caller takes a chunk *)
| ConsumerCancel.                          (* the caller cancels the stream *)

(** One event.  An event nothing is waiting for leaves the state as it is:
    a cleared or fired timer has no callback left, a settled promise has
    no continuation, a stream that is not readable does not call [cancel]. *)
Definition step (s : State) (e : Event) : State :=
  match e with
  | DeadlineElapsed =>
      if pending (timer s) then on_timeout s else s
  | BodySettled r =>
      match phase s with
      | AwaitingBody => after_body r s
      | _ => s
      end
  | CreateSettled r =>
      match phase s with
      | AwaitingUpstream => after_create r s
      | _ => s
      end
  | UpstreamNext n =>
      match phase s with
      | Streaming => after_next n s
      | _ => s
      end
  | ConsumerRead =>
      match stream s with
      | Some st => set_stream (Stream.read st) s
      | None => s
      end
  | ConsumerCancel =>
      match stream s with
      | Some st =>
          match Stream.cancel st with
          | Some st' => cancel_callback (set_stream st' s)
          | None => s
          end
      | None => s
      end
  end.

Definition run (s : State) (events : list Event) : State :=
  fold_left step events s.

(** Observations on a state. *)
Definition enqueued (s : State) : list (list byte) :=
  match stream s with
  | Some st => Stream.enqueued st
  | None => []
  end.

Definition terminations (s : State) : list Stream.StreamEvent :=
  match stream s with
  | Some st => Stream.terminations st
  | None => []
  end.

Definition signal_aborted (s : State) : bool := aborted (abortController s).

(* ===================================================================== *)
(** ** Notions the properties are stated with *)
(* ===================================================================== *)

Definition system_message : SdkMessageParam :=
  {| sdk_role := system; sdk_content := systemMessageContent |}.

(** A message survives the empty-turn filter when it has content or an
    attachment. *)
Definition kept (message : ClientMessage) : bool :=
  has_content message || has_attachment message.

(** The acknowledgement line without its leading line feed. *)
Definition acknowledgement_line (fn : jsstring) : jsstring :=
  lit "[User has attached an image: " ++ [34] ++ fn ++ [34]
    ++ lit ". Please acknowledge this attachment.]".

(** The content delta a chunk contributes: its delta when that is a
    non-empty string, nothing otherwise. *)
Definition emitted (chunk : ChatCompletionChunk) : list jsstring :=
  match contentDelta chunk with
  | Some d => if truthy d then [d] else []
  | None => []
  end.

Definition nonempty_deltas (chunks : list ChatCompletionChunk) : list jsstring :=
  flat_map emitted chunks.

(** The chunks up to and including the first one that carries a finish
    reason; all of them when none does. *)
Fixpoint upto_finish (chunks : list ChatCompletionChunk)
    : list ChatCompletionChunk :=
  match chunks with
  | [] => []
  | c :: rest => if has_finish_reason c then [c] else c :: upto_finish rest
  end.

(** The upstream iterator yields the chunks one after the other. *)
Definition yields (chunks : list ChatCompletionChunk) : list Event :=
  map (fun c => UpstreamNext (Yield c)) chunks.

(** The chunks the upstream iterator yields in a list of events. *)
Definition yielded (events : list Event) : list ChatCompletionChunk :=
  flat_map (fun e => match e with
                     | UpstreamNext (Yield c) => [c]
                     | _ => []
                     end) events.

(** Events under which the loop goes on undisturbed: the upstream neither
    ends nor fails and the consumer does not cancel. *)
Definition undisturbed (e : Event) : bool :=
  match e with
  | UpstreamNext (Yield _) => true
  | UpstreamNext _ => false
  | ConsumerCancel => false
  | _ => true
  end.

(** [start]'s loop can write: it waits for a chunk and the controller
    accepts [enqueue] and [close]. *)
Definition writable (s : State) : Prop :=
  phase s = Streaming /\
  exists st, stream s = Some st /\ Stream.canCloseOrEnqueue st = true.

(** The caller-facing stream no longer accepts writes. *)
Definition unwritable (s : State) : Prop :=
  exists st, stream s = Some st /\ Stream.is_readable st = false.

(** The response, the timer and the abort controller are the same in
    both states. *)
Definition same_control (s s' : State) : Prop :=
  response s' = response s /\
  timer s' = timer s /\
  abortController s' = abortController s.

(** The statuses [new NextResponse] accepts together with a body. *)
Definition valid_status (code : N) : bool :=
  (200 <=? code) && (code <=? 599) && negb (null_body_status code).

(** What holds of every state of a request. *)
Record Inv (s : State) : Prop := {
  inv_pending :
    pending (timer s) = true ->
    aborted (abortController s) = false /\
    (phase s = AwaitingBody \/ phase s = AwaitingUpstream);
  inv_calls :
    aborted (abortController s) = false ->
    abort_calls (abortController s) = [];
  inv_once : (List.length (abort_calls (abortController s)) <= 1)%nat;
  inv_await :
    phase s = AwaitingBody \/ phase s = AwaitingUpstream ->
    timeoutId (timer s) = true /\ stream s = None /\ response s = None /\
    (pending (timer s) = true \/
     aborted (abortController s) = true /\
     abort_calls (abortController s) = [lit "API Call Timeout"]);
  inv_body :
    phase s = AwaitingBody -> upstream_requests s = [];
  inv_requests : (List.length (upstream_requests s) <= 1)%nat;
  inv_streaming :
    phase s = Streaming ->
    streamClosed s = false /\
    exists st, stream s = Some st /\ Stream.closeRequested st = false /\
               Stream.state st <> Stream.Errored /\
               (Stream.is_readable st = false ->
                aborted (abortController s) = true);
  inv_open : streamClosed s = false -> terminations s = [];
  inv_term : (List.length (terminations s) <= 1)%nat
}.

(** The states a request can be in: [POST] has been called and events
    have been delivered. *)
Inductive reachable : State -> Prop :=
| reach_POST (apiKey : option jsstring) : reachable (POST apiKey)
| reach_step (s : State) (e : Event) : reachable s -> reachable (step s e).

(** *** Sample requests, chunks and errors *)

Definition text_chunk (d : string) : ChatCompletionChunk :=
  {| choices := Some [{| delta := Some {| delta_content := Some (lit d) |};
                         finish_reason := None |}] |}.

(** A closing chunk without content, as the upstream sends last. *)
Definition stop_chunk : ChatCompletionChunk :=
  {| choices := Some [{| delta := Some {| delta_content := None |};
                         finish_reason := Some FinishStop |}] |}.

(** A chunk without content and without finish reason, as the upstream
    sends first (it carries the role only). *)
Definition role_chunk : ChatCompletionChunk :=
  {| choices := Some [{| delta := Some {| delta_content := None |};
                         finish_reason := None |}] |}.

Definition final_chunk (d : string) : ChatCompletionChunk :=
  {| choices := Some [{| delta := Some {| delta_content := Some (lit d) |};
                         finish_reason := Some FinishStop |}] |}.

Definition hello : MessagesField :=
  IsArray [{| role := user; content := lit "Hello"; data := None |}].

Definition key : option jsstring := Some (lit "tgp_v1_key").

(** The handler waits for the body. *)
Definition received : list Event := [].

(** The handler has called [create] and waits for it. *)
Definition requested : list Event := [BodySettled (Resolved (BodyValue hello))].

Definition cat_png : FileData :=
  {| fileDataUrl := Some (lit "data:image/png;base64,iVBORw0KGgo=");
     fileName := Some (lit "cat.png");
     fileType := Some (lit "image/png") |}.

Definition assistant_with_file : ClientMessage :=
  {| role := assistant; content := []; data := Some cat_png |}.

Definition user_with_file : ClientMessage :=
  {| role := user; content := []; data := Some cat_png |}.

Definition user_with_unnamed_file : ClientMessage :=
  {| role := user; content := [];
     data := Some {| fileDataUrl := Some (lit "data:image/png;base64,iVBORw0KGgo=");
                     fileName := None;
                     fileType := Some (lit "image/png") |} |}.


Definition upstream_429 : Thrown :=
  {| err_name := lit "Error";
     err_message := lit "429 Rate limit exceeded";
     err_class := APIError (Some 429) |}.

(** Upstream API errors whose status no response with a body can have. *)
Definition upstream_304 : Thrown :=
  {| err_name := lit "Error";
     err_message := lit "304 status code (no body)";
     err_class := APIError (Some 304) |}.

Definition upstream_999 : Thrown :=
  {| err_name := lit "Error";
     err_message := lit "999 status code (no body)";
     err_class := APIError (Some 999) |}.

(* ===================================================================== *)
(** ** Further notions: the route *)
(* ===================================================================== *)

(** The event that hands the handler a non-empty [messages] array. *)
Definition carries_messages (e : Event) : bool :=
  match e with
  | BodySettled (Resolved (BodyValue (IsArray (_ :: _)))) => true
  | _ => false
  end.

(** The one request the handler builds (lines 109-116). *)
Definition completion_request (clientMessages : list ClientMessage)
    : CompletionRequest :=
  {| model := lit "deepseek-ai/DeepSeek-R1-Distill-Llama-70B-free";
     messages := preparedMessages clientMessages;
     stream_flag := true |}.

(** What the stream callbacks never touch, besides [same_control]. *)
Definition same_requests (s s' : State) : Prop :=
  upstream_requests s' = upstream_requests s /\
  body_reads s' = body_reads s /\
  (stream s' = None <-> stream s = None).

(** The stream exists exactly under the stream response. *)
Definition stream_matches_response (s : State) : Prop :=
  match stream s with
  | Some _ => response s = Some stream_response
  | None =>
      response s = None \/
      exists text code, response s = Some (text_response text code)
  end.

(** A message with its attachment reduced to what the normaliser looks
    at: whether there is a data URL, and the file name. *)
Definition redact_data (d : FileData) : FileData :=
  {| fileDataUrl := if truthy_opt (fileDataUrl d) then Some (lit "data:") else None;
     fileName := fileName d;
     fileType := None |}.

Definition redact (m : ClientMessage) : ClientMessage :=
  {| role := role m; content := content m;
     data := option_map redact_data (data m) |}.

(** A string has a character that is not white space. *)
Definition has_text (s : jsstring) : bool :=
  existsb (fun c => negb (is_ws c)) s.

(* ===================================================================== *)
(** ** The chat input form ([src/components/chat-input.tsx]) *)
(* ===================================================================== *)

Module ChatInput.

(** What the form reads of a DOM [File]. *)
Record File := {
  file_name : jsstring;
  file_type : jsstring;
  file_size : N
}.

Definition has_file (selectedFile : option File) : bool :=
  match selectedFile with
  | Some _ => true
  | None => false
  end.

(** Lines 31-36, [handleFileChange]: [e.target.files?.[0] || null]. *)
Definition handleFileChange (files : option (list File)) : option File :=
  match files with
  | Some (f :: _) => Some f
  | _ => None
  end.

(** Lines 38-46, [onSubmit]: [Some file] is the call
    [handleSubmit(e, selectedFile)], [None] the early return of line 41. *)
Definition onSubmit (input : jsstring) (selectedFile : option File)
    (isLoading : bool) : option (option File) :=
  if (negb (truthy (trim input)) && negb (has_file selectedFile)) || isLoading
  then None
  else Some selectedFile.

(** Lines 97-107, the text area's [onKeyDown]: whether
    [form.requestSubmit()] is called. *)
Definition onKeyDown (key : jsstring) (shiftKey : bool) (input : jsstring)
    (selectedFile : option File) (isLoading : bool) (has_form : bool) : bool :=
  if str_eqb key (lit "Enter") && negb shiftKey then
    if (truthy (trim input) || has_file selectedFile) && negb isLoading
    then has_form
    else false
  else false.

(** Line 140, the [disabled] attribute of the send button. *)
Definition send_disabled (input : jsstring) (selectedFile : option File)
    (isLoading : bool) : bool :=
  isLoading || (negb (truthy (trim input)) && negb (has_file selectedFile)).

(** Lines 88-94, the placeholder of the text area. *)
Definition placeholder (selectedFile : option File) (isLoading : bool)
    : jsstring :=
  if isLoading then lit "Processing..."
  else if has_file selectedFile
       then lit "Add an optional message for your image..."
       else lit "Type your message...".

End ChatInput.

(* ===================================================================== *)
(** ** The page ([src/app/page.tsx]) *)
(* ===================================================================== *)

Module Page.

Import ChatInput.

Definition AUTH_KEY : jsstring := lit "app_authenticated_user_v1".
Definition USERNAME_KEY : jsstring := lit "app_username_v1".

(** [localStorage]: string keys and string values. *)
Definition Storage := list (jsstring * jsstring).

Fixpoint getItem (k : jsstring) (ls : Storage) : option jsstring :=
  match ls with
  | [] => None
  | (k', v) :: rest => if str_eqb k' k then Some v else getItem k rest
  end.

Fixpoint setItem (k v : jsstring) (ls : Storage) : Storage :=
  match ls with
  | [] => [(k, v)]
  | (k', v') :: rest =>
      if str_eqb k' k then (k, v) :: rest else (k', v') :: setItem k v rest
  end.

(** [process.env.NEXT_PUBLIC_*], each unset or a string. *)
Record Env := {
  NEXT_PUBLIC_DEFAULT_USERNAME : option jsstring;
  NEXT_PUBLIC_APP_PASSWORD : option jsstring
}.

(** [a || b] where [a] may be [null] or [undefined]. *)
Definition opt_or (a : option jsstring) (b : jsstring) : jsstring :=
  match a with
  | Some s => or_else s b
  | None => b
  end.

(** Line 37. *)
Definition appPassword (env : Env) : option jsstring :=
  NEXT_PUBLIC_APP_PASSWORD env.

(** Line 39. *)
Definition defaultUsernameFromEnv (env : Env) : jsstring :=
  opt_or (NEXT_PUBLIC_DEFAULT_USERNAME env) (lit "Yakub").

(** The [useState] cells of [ChatbotPage]. *)
Record PageState := {
  mounted : bool;
  isAuthenticated : bool;
  currentUsername : jsstring;
  selectedFile : option File
}.

(** Lines 27-35: the initial state; [window] tells whether the code runs
    in the browser. *)
Definition initial (window : bool) (env : Env) (ls : Storage) : PageState :=
  {| mounted := false;
     isAuthenticated := false;
     currentUsername :=
       if window
       then opt_or (getItem USERNAME_KEY ls)
                   (opt_or (NEXT_PUBLIC_DEFAULT_USERNAME env) (lit "Guest"))
       else opt_or (NEXT_PUBLIC_DEFAULT_USERNAME env) (lit "Guest");
     selectedFile := None |}.

(** [authStatus === "true"] *)
Definition is_true_string (o : option jsstring) : bool :=
  match o with
  | Some s => str_eqb s (lit "true")
  | None => false
  end.

(** Lines 41-57: the mount effect, in the browser. *)
Definition mount_effect (env : Env) (st : PageState) (ls : Storage)
    : PageState * Storage :=
  let authStatus := getItem AUTH_KEY ls in
  let storedUsername := getItem USERNAME_KEY ls in
  if is_true_string authStatus && truthy_opt storedUsername then
    ({| mounted := true; isAuthenticated := true;
        currentUsername := opt_or storedUsername [];
        selectedFile := selectedFile st |}, ls)
  else if negb (truthy_opt (appPassword env)) then
    ({| mounted := true; isAuthenticated := true;
        currentUsername := opt_or storedUsername (defaultUsernameFromEnv env);
        selectedFile := selectedFile st |},
     setItem USERNAME_KEY (opt_or storedUsername (defaultUsernameFromEnv env))
       (setItem AUTH_KEY (lit "true") ls))
  else
    ({| mounted := true; isAuthenticated := isAuthenticated st;
        currentUsername := currentUsername st;
        selectedFile := selectedFile st |}, ls).

(** Lines 86-93. *)
Definition handleAuthenticationSuccess (username : jsstring)
    (st : PageState) (ls : Storage) : PageState * Storage :=
  ({| mounted := mounted st; isAuthenticated := true;
      currentUsername := username; selectedFile := selectedFile st |},
   setItem USERNAME_KEY username (setItem AUTH_KEY (lit "true") ls)).

(** Lines 125-192: which of the three screens is rendered. *)
Inductive View := Loading | Gate | Chat.

Definition view (env : Env) (st : PageState) : View :=
  if negb (mounted st) then Loading
  else if truthy_opt (appPassword env) && negb (isAuthenticated st) then Gate
  else Chat.

(** Line 183: the [isLoading] prop given to the input form. *)
Definition input_isLoading (env : Env) (st : PageState)
    (isChatLoading : bool) : bool :=
  (negb (isAuthenticated st) && truthy_opt (appPassword env)) || isChatLoading.

(** What [handleFormSubmitWithFile] does with the hook's [handleSubmit]. *)
Inductive Submission :=
| NotSubmitted
| HookSubmit (data : option FileData).

(** Lines 95-123.  [fileToDataURL] is the outcome of reading the file
    (lines 17-24): the data URL, or the reader's error.  The result is the
    call of the hook, if any, and the selected file afterwards.  The hook
    ([useChat], not part of these sources) is taken to return from the
    call of line 119. *)
Definition handleFormSubmitWithFile (fileToDataURL : File -> Result jsstring)
    (fileToSubmit : option File) (st : PageState) : Submission * PageState :=
  let cleared :=
    {| mounted := mounted st; isAuthenticated := isAuthenticated st;
       currentUsername := currentUsername st; selectedFile := None |} in
  match fileToSubmit with
  | Some f =>
      match fileToDataURL f with
      | Ok dataUrl =>
          (HookSubmit (Some {| fileDataUrl := Some dataUrl;
                               fileName := Some (file_name f);
                               fileType := Some (file_type f) |}),
           cleared)
      | Throw _ => (NotSubmitted, st)
      end
  | None => (HookSubmit None, cleared)
  end.

End Page.

(** Sample data for the page and the form. *)
Definition photo : ChatInput.File :=
  {| ChatInput.file_name := lit "cat.png";
     ChatInput.file_type := lit "image/png";
     ChatInput.file_size := 2048 |}.

Definition read_ok (f : ChatInput.File) : Result jsstring :=
  Ok (lit "data:image/png;base64,iVBORw0KGgo=").

Definition no_password : Page.Env :=
  {| Page.NEXT_PUBLIC_DEFAULT_USERNAME := None;
     Page.NEXT_PUBLIC_APP_PASSWORD := None |}.

Definition with_password : Page.Env :=
  {| Page.NEXT_PUBLIC_DEFAULT_USERNAME := None;
     Page.NEXT_PUBLIC_APP_PASSWORD := Some (lit "s3cret") |}.

Definition syntax_error : Thrown :=
  {| err_name := lit "SyntaxError";
     err_message := lit "Unexpected end of JSON input";
     err_class := PlainError |}.

Definition abort_error : Thrown :=
  {| err_name := lit "AbortError";
     err_message := lit "This operation was aborted";
     err_class := PlainError |}.

Definition empty_turn : ClientMessage :=
  {| role := user; content := []; data := None |}.

(** The relay is streaming and has relayed "Hi". *)
Definition streaming_hi : list Event :=
  requested ++ [CreateSettled (Resolved tt);
                UpstreamNext (Yield (text_chunk "Hi"))].

Definition same_control_response (s s' : State) : Prop :=
  response s' = response s.

(* ===================================================================== *)
(** ** Facts about strings *)
(* ===================================================================== *)

Section StringFacts.

Lemma startsWith_app (p s : jsstring) : startsWith (p ++ s) p = true.
Proof.
  induction p as [|a p IH]; simpl.
  - reflexivity.
  - rewrite N.eqb_refl. exact IH.
Qed.


Lemma includes_app (a sub b : jsstring) : includes (a ++ sub ++ b) sub = true.
Proof.
  induction a as [|c a IH]; simpl.
  - destruct (sub ++ b) eqn:E; simpl; rewrite <- ?E;
      rewrite startsWith_app; reflexivity.
  - rewrite IH. apply orb_true_r.
Qed.

Lemma includes_false_short (s sub : jsstring) :
  (List.length s < List.length sub)%nat -> includes s sub = false.
Proof.
  revert sub; induction s as [|c s IH]; intros sub Hlen.
  - destruct sub; simpl in *; [lia | reflexivity].
  - destruct sub as [|a sub]; simpl in Hlen; [lia|].
    cbn [includes]. rewrite (IH (a :: sub)) by (simpl; lia).
    rewrite orb_false_r. cbn [startsWith].
    destruct (a =? c); [|reflexivity]. simpl.
    clear IH. revert sub Hlen. induction s as [|d s IHs]; intros sub Hlen.
    + destruct sub; simpl in *; [lia | reflexivity].
    + destruct sub as [|b sub]; simpl in *; [lia|].
      destruct (b =? d); [|reflexivity]. simpl. apply IHs. lia.
Qed.

Lemma trimStart_head (c : code_unit) (t : jsstring) :
  is_ws c = false -> trimStart (c :: t) = c :: t.
Proof. intros H. simpl. rewrite H. reflexivity. Qed.

Lemma trimEnd_last (x : jsstring) (c : code_unit) :
  is_ws c = false -> trimEnd (x ++ [c]) = x ++ [c].
Proof.
  intros H. unfold trimEnd. rewrite rev_app_distr. simpl rev at 2.
  simpl app. rewrite trimStart_head by exact H.
  change (c :: rev x) with ([c] ++ rev x).
  rewrite rev_app_distr, rev_involutive. reflexivity.
Qed.

(** Trimming at the start removes a prefix only, and nothing from the
    first character that is not white space on. *)
Lemma trimStart_suffix (a : jsstring) (c : code_unit) (t : jsstring) :
  is_ws c = false -> exists a', trimStart (a ++ c :: t) = a' ++ c :: t.
Proof.
  intros H. induction a as [|x a IH].
  - exists []. simpl. rewrite H. reflexivity.
  - simpl. destruct (is_ws x).
    + exact IH.
    + exists (x :: a). reflexivity.
Qed.

(** A block that starts and ends with characters that are not white
    space survives [trim] whatever precedes it. *)
Lemma trim_keeps_block (a : jsstring) (c : code_unit) (mid : jsstring)
    (c' : code_unit) :
  is_ws c = false -> is_ws c' = false ->
  exists a', trim (a ++ c :: mid ++ [c']) = a' ++ c :: mid ++ [c'].
Proof.
  intros Hc Hc'. unfold trim.
  destruct (trimStart_suffix a c (mid ++ [c']) Hc) as [a' E].
  exists a'. rewrite E.
  change (a' ++ c :: mid ++ [c']) with (a' ++ (c :: mid) ++ [c']).
  rewrite app_assoc. apply trimEnd_last. exact Hc'.
Qed.

Lemma trim_block (c : code_unit) (mid : jsstring) (c' : code_unit) :
  is_ws c = false -> is_ws c' = false ->
  trim (c :: mid ++ [c']) = c :: mid ++ [c'].
Proof.
  intros Hc Hc'. unfold trim. rewrite trimStart_head by exact Hc.
  change (c :: mid ++ [c']) with ((c :: mid) ++ [c']).
  apply trimEnd_last. exact Hc'.
Qed.

(** [str_eqb] is string equality, [===] on strings. *)
Lemma str_eqb_eq (a b : jsstring) : str_eqb a b = true <-> a = b.
Proof.
  unfold str_eqb. split.
  - revert a; induction b as [|y b IH]; intros [|x a] H; simpl in H;
      try discriminate; [reflexivity|].
    apply andb_true_iff in H as [Hl H].
    apply andb_true_iff in H as [Hxy H].
    apply N.eqb_eq in Hxy. subst y. f_equal. apply IH.
    rewrite Hl. exact H.
  - intros ->. rewrite Nat.eqb_refl. simpl.
    rewrite <- (app_nil_r b) at 1. apply startsWith_app.
Qed.

End StringFacts.

(* ===================================================================== *)
(** ** The normaliser: what is sent upstream *)
(* ===================================================================== *)

Section NormalizerFacts.

Lemma skipped_kept (message : ClientMessage) :
  skipped message = negb (kept message).
Proof.
  unfold skipped, kept, has_content, has_attachment.
  rewrite negb_orb. reflexivity.
Qed.

Lemma loop_from (ms : list ClientMessage) (acc : list SdkMessageParam) :
  fold_left loop_body ms acc = acc ++ map currentSdkMessage (filter kept ms).
Proof.
  revert acc; induction ms as [|m ms IH]; intros acc; simpl.
  - rewrite app_nil_r. reflexivity.
  - rewrite IH. unfold loop_body. rewrite skipped_kept.
    destruct (kept m); simpl.
    + rewrite <- app_assoc. reflexivity.
    + reflexivity.
Qed.

Lemma preparedMessages_eq (ms : list ClientMessage) :
  preparedMessages ms = system_message :: map currentSdkMessage (filter kept ms).
Proof. unfold preparedMessages. rewrite loop_from. reflexivity. Qed.

Lemma role_eqb_eq (a b : Role) : role_eqb a b = true -> a = b.
Proof. destruct a, b; simpl; congruence. Qed.

Lemma currentSdkMessage_role (m : ClientMessage) :
  sdk_role (currentSdkMessage m) = role m.
Proof.
  unfold currentSdkMessage, attachment_branch.
  destruct (data m) as [d|]; [|reflexivity].
  destruct (role_eqb (role m) user) eqn:R; simpl; [|reflexivity].
  apply role_eqb_eq in R.
  destruct (truthy_opt (fileDataUrl d) && truthy_opt (fileName d));
    [|reflexivity].
  destruct (is_image d); simpl; congruence.
Qed.

Lemma acknowledgement_line_shape (fn : jsstring) :
  acknowledgement_line fn =
  91 :: (lit "User has attached an image: " ++ [34] ++ fn ++ [34]
           ++ lit ". Please acknowledge this attachment.") ++ [93].
Proof.
  unfold acknowledgement_line.
  change (lit "[User has attached an image: ")
    with (91 :: lit "User has attached an image: ").
  change (lit ". Please acknowledge this attachment.]")
    with (lit ". Please acknowledge this attachment." ++ [93]).
  rewrite <- app_comm_cons. f_equal.
  repeat (rewrite <- app_assoc; cbn [app]). reflexivity.
Qed.

Lemma trim_fileAcknowledgement (fn : jsstring) :
  trim (fileAcknowledgement (Some fn)) = acknowledgement_line fn.
Proof.
  unfold fileAcknowledgement, interpolate.
  change ([10] ++ lit "[User has attached an image: " ++ [34] ++ fn ++ [34]
            ++ lit ". Please acknowledge this attachment.]")
    with (10 :: acknowledgement_line fn).
  unfold trim. change (trimStart (10 :: acknowledgement_line fn))
    with (trimStart (acknowledgement_line fn)).
  rewrite acknowledgement_line_shape.
  apply trim_block; reflexivity.
Qed.

(** The text built in the attachment branch ends with the whole
    acknowledgement line. *)
Lemma combinedText_ends_with_line (m : ClientMessage) (d : FileData)
    (fn : jsstring) :
  fileName d = Some fn ->
  exists before, combinedText m d = before ++ acknowledgement_line fn.
Proof.
  intros Hfn. unfold combinedText. rewrite Hfn, trim_fileAcknowledgement.
  rewrite acknowledgement_line_shape.
  destruct (trim_keeps_block (trim (or_else (content m) []) ++ lit " ") 91
              (lit "User has attached an image: " ++ [34] ++ fn ++ [34]
                 ++ lit ". Please acknowledge this attachment.") 93
              eq_refl eq_refl) as [a' E].
  exists a'. rewrite <- app_assoc in E. exact E.
Qed.

Lemma combinedText_empty_content (m : ClientMessage) (d : FileData)
    (fn : jsstring) :
  fileName d = Some fn -> content m = [] ->
  combinedText m d = acknowledgement_line fn.
Proof.
  intros Hfn Hc. unfold combinedText. rewrite Hfn, Hc, trim_fileAcknowledgement.
  change (trim (or_else [] []) ++ lit " " ++ acknowledgement_line fn)
    with (32 :: acknowledgement_line fn).
  unfold trim.
  change (trimStart (32 :: acknowledgement_line fn))
    with (trimStart (acknowledgement_line fn)).
  rewrite acknowledgement_line_shape.
  apply trim_block; reflexivity.
Qed.

Lemma acknowledgement_line_includes (before fn : jsstring) :
  includes (before ++ acknowledgement_line fn) fn = true.
Proof.
  unfold acknowledgement_line.
  replace (before ++ lit "[User has attached an image: " ++ [34] ++ fn ++ [34]
             ++ lit ". Please acknowledge this attachment.]")
    with ((before ++ lit "[User has attached an image: " ++ [34]) ++ fn ++
          ([34] ++ lit ". Please acknowledge this attachment.]")).
  - apply includes_app.
  - rewrite <- !app_assoc. reflexivity.
Qed.

End NormalizerFacts.


(* ===================================================================== *)
(** ** The stream controller *)
(* ===================================================================== *)

Section StreamFacts.

Lemma enqueued_of_app (l1 l2 : list Stream.StreamEvent) :
  Stream.enqueued_of (l1 ++ l2) = Stream.enqueued_of l1 ++ Stream.enqueued_of l2.
Proof.
  induction l1 as [|ev l1 IH]; simpl.
  - reflexivity.
  - destruct ev; simpl; rewrite IH; reflexivity.
Qed.

Lemma enqueue_writable (chunk : list byte) (st : Stream.t) :
  Stream.canCloseOrEnqueue st = true ->
  exists st', Stream.enqueue chunk st = Ok st' /\
              Stream.canCloseOrEnqueue st' = true /\
              Stream.enqueued st' = Stream.enqueued st ++ [chunk] /\
              Stream.terminations st' = Stream.terminations st.
Proof.
  intros H. unfold Stream.enqueue. rewrite H. eexists. split; [reflexivity|].
  unfold Stream.enqueued, Stream.terminations; simpl.
  rewrite enqueued_of_app, filter_app; simpl. rewrite app_nil_r.
  repeat split; try reflexivity. exact H.
Qed.

Lemma enqueue_unwritable (chunk : list byte) (st : Stream.t) :
  Stream.canCloseOrEnqueue st = false ->
  Stream.enqueue chunk st =
  Throw (TypeError "Invalid state: Controller is already closed").
Proof. intros H. unfold Stream.enqueue. rewrite H. reflexivity. Qed.

Lemma close_enqueued (st st' : Stream.t) :
  Stream.close st = Ok st' -> Stream.enqueued st' = Stream.enqueued st.
Proof.
  unfold Stream.close. destruct (Stream.canCloseOrEnqueue st); [|discriminate].
  intros E; injection E as <-. unfold Stream.enqueued; simpl.
  rewrite enqueued_of_app; simpl. apply app_nil_r.
Qed.

Lemma error_enqueued (e : Thrown) (st : Stream.t) :
  Stream.enqueued (Stream.error e st) = Stream.enqueued st.
Proof.
  unfold Stream.error. destruct (Stream.is_readable st); [|reflexivity].
  unfold Stream.enqueued; simpl. rewrite enqueued_of_app; simpl.
  apply app_nil_r.
Qed.

Lemma read_enqueued (st : Stream.t) :
  Stream.enqueued (Stream.read st) = Stream.enqueued st.
Proof.
  unfold Stream.read. destruct (Stream.is_readable st); [|reflexivity].
  destruct (Stream.queue st); reflexivity.
Qed.

Lemma cancel_enqueued (st st' : Stream.t) :
  Stream.cancel st = Some st' -> Stream.enqueued st' = Stream.enqueued st.
Proof.
  unfold Stream.cancel. destruct (Stream.is_readable st); [|discriminate].
  intros E; injection E as <-. unfold Stream.enqueued; simpl.
  rewrite enqueued_of_app; simpl. apply app_nil_r.
Qed.

(** The exception [enqueue] and [close] raise is not an [AbortError]. *)
Lemma controller_TypeError_not_abort :
  str_eqb (err_name (TypeError "Invalid state: Controller is already closed"))
          (lit "AbortError") = false.
Proof. reflexivity. Qed.

End StreamFacts.

(* ===================================================================== *)
(** ** Runs of the handler *)
(* ===================================================================== *)

Section RunFacts.

Lemma run_cons (s : State) (e : Event) (events : list Event) :
  run s (e :: events) = run (step s e) events.
Proof. reflexivity. Qed.

Lemma run_app (s : State) (l1 l2 : list Event) :
  run s (l1 ++ l2) = run (run s l1) l2.
Proof. unfold run. apply fold_left_app. Qed.

(** Once [start] has returned nothing is written any more. *)
Lemma finished_step (s : State) (e : Event) :
  phase s = Finished ->
  phase (step s e) = Finished /\ enqueued (step s e) = enqueued s /\
  terminations (step s e) = terminations s.
Proof.
  intros H. destruct e; simpl; try rewrite H; auto.
  - destruct (pending (timer s)); simpl; auto.
  - unfold enqueued, terminations.
    destruct (stream s) as [st|] eqn:Es; simpl; [|rewrite Es; auto].
    repeat split; auto using read_enqueued.
    unfold Stream.terminations, Stream.read.
    destruct (Stream.is_readable st); [|reflexivity].
    destruct (Stream.queue st); reflexivity.
  - unfold enqueued, terminations.
    destruct (stream s) as [st|] eqn:Es; simpl; [|rewrite Es; auto].
    destruct (Stream.cancel st) as [st'|] eqn:Ec; [|rewrite Es; auto].
    assert (Ht : Stream.terminations st' = Stream.terminations st).
    { unfold Stream.cancel in Ec.
      destruct (Stream.is_readable st); try discriminate.
      injection Ec as <-. unfold Stream.terminations; simpl.
      rewrite filter_app; simpl. apply app_nil_r. }
    unfold cancel_callback.
    destruct (negb (aborted (abortController (set_stream st' s)))); simpl;
      repeat split; eauto using cancel_enqueued.
Qed.

Lemma finished_run (events : list Event) (s : State) :
  phase s = Finished ->
  phase (run s events) = Finished /\ enqueued (run s events) = enqueued s /\
  terminations (run s events) = terminations s.
Proof.
  revert s; induction events as [|e events IH]; intros s H.
  - auto.
  - rewrite run_cons.
    destruct (finished_step s e H) as (Hp & He & Ht).
    destruct (IH _ Hp) as (Hp' & He' & Ht').
    repeat split; congruence.
Qed.

(** A finished handler without a stream and without a scheduled timer
    reacts to nothing. *)
Lemma settled_step (s : State) (e : Event) :
  phase s = Finished -> stream s = None -> pending (timer s) = false ->
  step s e = s.
Proof.
  intros Hp Hs Ht. destruct e; simpl; rewrite ?Hp, ?Hs, ?Ht; reflexivity.
Qed.

Lemma settled_run (events : list Event) (s : State) :
  phase s = Finished -> stream s = None -> pending (timer s) = false ->
  run s events = s.
Proof.
  intros Hp Hs Ht. induction events as [|e events IH].
  - reflexivity.
  - rewrite run_cons, settled_step; assumption.
Qed.

End RunFacts.

(* ===================================================================== *)
(** ** The request invariant *)
(* ===================================================================== *)

Section InvariantFacts.

Ltac inv_auto :=
  constructor; unfold terminations in *; simpl in *; intros;
  repeat match goal with
         | H : _ /\ _ |- _ => destruct H
         | H : exists _, _ |- _ => destruct H
         end;
  subst; simpl in *;
  try solve [intuition (try discriminate; try congruence; try lia; eauto)].

Ltac open_state s :=
  destruct s as [ph resp [tid pend] [ab rs calls] br ups ostream sc rej];
  simpl in *.

Lemma Inv_POST (apiKey : option jsstring) : Inv (POST apiKey).
Proof.
  unfold POST. destruct (negb (truthy_opt apiKey)); inv_auto.
Qed.

Lemma Inv_outer_catch (error : Thrown) (s : State) :
  Inv s -> phase s = AwaitingBody \/ phase s = AwaitingUpstream ->
  Inv (outer_catch error s).
Proof.
  intros [I1 I2 I3 I4 I5 I6 I7 I8 I9] Hph.
  destruct (I4 Hph) as (Htid & Hst & _).
  unfold outer_catch, clearTimeout_if_set. rewrite Htid.
  open_state s. subst.
  destruct (is_abort_error error); [|destruct (err_class error)];
    unfold respond, respond_or_reject, reject;
    try match goal with
        | |- context [new_NextResponse ?t ?c] =>
            destruct (new_NextResponse t c)
        end;
    inv_auto.
Qed.

Lemma Inv_after_body (r : Settled ParsedBody) (s : State) :
  Inv s -> phase s = AwaitingBody -> Inv (after_body r s).
Proof.
  intros I Hph. unfold after_body.
  destruct r as [b|e]; [|apply Inv_outer_catch; auto].
  destruct (destructure b) as [f|e]; [|apply Inv_outer_catch; auto].
  destruct I as [I1 I2 I3 I4 I5 I6 I7 I8 I9].
  destruct (I4 (or_introl Hph)) as (Htid & Hst & Hresp & Hpa).
  specialize (I5 Hph).
  destruct (invalid_messages f).
  - unfold clearTimeout_if_set. rewrite Htid.
    open_state s. subst. unfold respond. inv_auto.
  - open_state s. subst. inv_auto.
Qed.

Lemma Inv_after_create (r : Settled unit) (s : State) :
  Inv s -> phase s = AwaitingUpstream -> Inv (after_create r s).
Proof.
  intros I Hph. unfold after_create.
  destruct r as [u|e]; [|apply Inv_outer_catch; auto].
  destruct I as [I1 I2 I3 I4 I5 I6 I7 I8 I9].
  destruct (I4 (or_intror Hph)) as (Htid & Hst & Hresp & Hpa).
  unfold clearTimeout_if_set. rewrite Htid.
  open_state s. subst. inv_auto.
  split; [reflexivity|]. exists Stream.fresh.
  repeat split; simpl; discriminate.
Qed.

Lemma cancel_some (st st' : Stream.t) :
  Stream.cancel st = Some st' ->
  Stream.is_readable st = true /\ Stream.state st' = Stream.Closed /\
  Stream.closeRequested st' = Stream.closeRequested st /\
  Stream.terminations st' = Stream.terminations st /\
  Stream.enqueued st' = Stream.enqueued st.
Proof.
  intros E. pose proof (cancel_enqueued st st' E) as He.
  unfold Stream.cancel in E.
  destruct (Stream.is_readable st); [|discriminate].
  injection E as <-. repeat split; auto.
  unfold Stream.terminations; simpl. rewrite filter_app; simpl.
  apply app_nil_r.
Qed.

(** [closeStream] on an open writer: [close] is accepted, or throws and
    is ignored. *)
Lemma closeStream_open (s : State) (st : Stream.t) :
  streamClosed s = false -> stream s = Some st ->
  (Stream.canCloseOrEnqueue st = true /\
   exists st', Stream.close st = Ok st' /\
     closeStream s = set_streamClosed true (set_stream st' s) /\
     Stream.terminations st' = Stream.terminations st ++ [Stream.CloseAccepted])
  \/
  (Stream.canCloseOrEnqueue st = false /\
   closeStream s = set_streamClosed true s).
Proof.
  intros Hsc Hst. unfold closeStream. rewrite Hsc, Hst. simpl.
  unfold Stream.close.
  destruct (Stream.canCloseOrEnqueue st) eqn:Hc; [left|right]; split; auto.
  eexists. split; [reflexivity|]. split; [reflexivity|].
  unfold Stream.terminations; simpl. rewrite filter_app. reflexivity.
Qed.

Lemma Inv_finally_close (s : State) :
  Inv s -> phase s = Streaming -> Inv (finally_close s).
Proof.
  intros [I1 I2 I3 I4 I5 I6 I7 I8 I9] Hph.
  destruct (I7 Hph) as (Hsc & st & Hst & Hcr & Hne & Hab).
  specialize (I8 Hsc). unfold terminations in *. rewrite Hst in *.
  unfold finally_close.
  destruct (closeStream_open s st Hsc Hst)
    as [(Hc & st' & _ & -> & Ht) | (Hc & ->)];
    open_state s; subst; inv_auto.
  rewrite Ht, I8. simpl. lia.
Qed.

Lemma Inv_inner_catch (error : Thrown) (s : State) :
  Inv s -> phase s = Streaming ->
  Inv (set_phase Finished (closeStream (inner_catch error s))).
Proof.
  intros I Hph. unfold inner_catch.
  destruct (str_eqb (err_name error) (lit "AbortError")).
  { apply (Inv_finally_close s I Hph). }
  destruct I as [I1 I2 I3 I4 I5 I6 I7 I8 I9].
  destruct (I7 Hph) as (Hsc & st & Hst & Hcr & Hne & Hab).
  specialize (I8 Hsc). unfold terminations in *. rewrite Hst in *.
  unfold closeStream, Stream.close, Stream.error, Stream.canCloseOrEnqueue.
  destruct (Stream.is_readable st) eqn:Hr;
    open_state s; subst; simpl; rewrite ?Hr; simpl.
  - inv_auto. unfold Stream.terminations in *. simpl.
    rewrite filter_app, I8. simpl. lia.
  - inv_auto.
Qed.

Lemma Inv_loop_chunk (chunk : ChatCompletionChunk) (s : State) :
  Inv s -> phase s = Streaming -> Inv (loop_chunk chunk s).
Proof.
  intros I Hph. unfold loop_chunk.
  assert (Hplain : Inv (if has_finish_reason chunk then finally_close s else s)).
  { destruct (has_finish_reason chunk); auto using Inv_finally_close. }
  destruct (contentDelta chunk) as [d|]; [|exact Hplain].
  destruct (stream s) as [st|] eqn:Hst; [|exact Hplain].
  destruct (truthy d); [|exact Hplain].
  destruct (Stream.canCloseOrEnqueue st) eqn:Hc.
  - destruct (enqueue_writable (encode d) st Hc) as (st' & -> & Hc' & _ & Ht).
    assert (I' : Inv (set_stream st' s)).
    { destruct I as [I1 I2 I3 I4 I5 I6 I7 I8 I9].
      destruct (I7 Hph) as (Hsc & st0 & Hst0 & Hcr & Hne & Hab).
      unfold Stream.canCloseOrEnqueue in Hc'.
      apply andb_true_iff in Hc' as [Hr' Hcr'].
      apply negb_true_iff in Hcr'.
      unfold terminations in *. rewrite Hst in *.
      open_state s; subst; inv_auto.
      split; [reflexivity|]. exists st'. repeat split; auto.
      - unfold Stream.is_readable in Hr'.
        destruct (Stream.state st'); congruence.
      - congruence. }
    destruct (has_finish_reason chunk); [|exact I'].
    apply Inv_finally_close; auto.
  - rewrite (enqueue_unwritable _ _ Hc). apply Inv_inner_catch; auto.
Qed.

Lemma Inv_after_next (n : Next) (s : State) :
  Inv s -> phase s = Streaming -> Inv (after_next n s).
Proof.
  intros I Hph. destruct n; simpl.
  - apply Inv_loop_chunk; auto.
  - apply Inv_finally_close; auto.
  - apply Inv_inner_catch; auto.
Qed.

Lemma Inv_step (s : State) (e : Event) : Inv s -> Inv (step s e).
Proof.
  intros I. destruct e; simpl.
  - (* the deadline elapses *)
    destruct (pending (timer s)) eqn:Hp; [|exact I].
    destruct I as [I1 I2 I3 I4 I5 I6 I7 I8 I9].
    destruct (I1 Hp) as [Hab Hph]. specialize (I2 Hab).
    unfold on_timeout. open_state s. subst. inv_auto.
  - destruct (phase s) eqn:Hph; auto using Inv_after_body.
  - destruct (phase s) eqn:Hph; auto using Inv_after_create.
  - destruct (phase s) eqn:Hph; auto using Inv_after_next.
  - (* the consumer reads *)
    destruct (stream s) as [st|] eqn:Hst; [|exact I].
    destruct I as [I1 I2 I3 I4 I5 I6 I7 I8 I9].
    unfold terminations in *. rewrite Hst in *.
    unfold Stream.read.
    destruct (Stream.is_readable st) eqn:Hr.
    2:{ open_state s; subst; inv_auto. }
    destruct (Stream.queue st) as [|c q] eqn:Hq.
    { open_state s; subst; inv_auto. }
    open_state s; subst; inv_auto.
    destruct (I7 eq_refl) as (Hsc & st0 & E & Hcr & Hne & Hab).
    injection E as <-.
    split; [exact Hsc|]. eexists. split; [reflexivity|]. simpl.
    rewrite Hcr. repeat split; auto.
    + destruct q; discriminate.
    + unfold Stream.is_readable; simpl. destruct q; discriminate.
  - (* the consumer cancels *)
    destruct (stream s) as [st|] eqn:Hst; [|exact I].
    destruct (Stream.cancel st) as [st'|] eqn:Ec; [|exact I].
    destruct (cancel_some st st' Ec) as (Hr & Hs' & Hcr' & Ht' & _).
    destruct I as [I1 I2 I3 I4 I5 I6 I7 I8 I9].
    unfold terminations in *. rewrite Hst in *.
    assert (Hpend : pending (timer s) = false).
    { destruct (pending (timer s)); [|reflexivity].
      destruct (I1 eq_refl) as [_ Hph].
      destruct (I4 Hph) as (_ & Hn & _). congruence. }
    assert (Hph : phase s = Streaming \/ phase s = Finished).
    { destruct (phase s); auto;
        [destruct (I4 (or_introl eq_refl)) as (_ & Hn & _)
        |destruct (I4 (or_intror eq_refl)) as (_ & Hn & _)]; congruence. }
    assert (Hstr : phase s = Streaming ->
              streamClosed s = false /\
              exists st0, Some st' = Some st0 /\
                Stream.closeRequested st0 = false /\
                Stream.state st0 <> Stream.Errored /\
                (Stream.is_readable st0 = false -> true = true)).
    { intros H. destruct (I7 H) as (Hsc & st0 & E & Hcr & _).
      injection E as <-. split; [exact Hsc|]. exists st'.
      repeat split; congruence. }
    unfold cancel_callback; simpl.
    destruct (aborted (abortController s)) eqn:Hab; simpl;
      open_state s; subst; inv_auto; rewrite ?Ht'; auto.
    specialize (I2 eq_refl). subst. simpl. lia.
Qed.

Lemma Inv_run (apiKey : option jsstring) (events : list Event) :
  Inv (run (POST apiKey) events).
Proof.
  unfold run. rewrite <- fold_left_rev_right.
  induction (rev events) as [|e l IH]; simpl.
  - apply Inv_POST.
  - apply Inv_step. exact IH.
Qed.

Lemma reachable_run (s : State) :
  reachable s <-> exists apiKey events, s = run (POST apiKey) events.
Proof.
  split.
  - induction 1 as [apiKey | s e _ (apiKey & events & ->)].
    + exists apiKey, []. reflexivity.
    + exists apiKey, (events ++ [e]). rewrite run_app. reflexivity.
  - intros (apiKey & events & ->). unfold run.
    rewrite <- fold_left_rev_right.
    induction (rev events) as [|e l IH]; simpl; constructor. exact IH.
Qed.

Lemma Inv_reachable (s : State) : reachable s -> Inv s.
Proof. induction 1; auto using Inv_POST, Inv_step. Qed.

(** In every execution [abort] is called at most once, one upstream
    request is issued at most, and the caller-facing stream sees at most
    one termination. *)
Corollary at_most_once (s : State) :
  reachable s ->
  (List.length (abort_calls (abortController s)) <= 1)%nat /\
  (List.length (upstream_requests s) <= 1)%nat /\
  (List.length (terminations s) <= 1)%nat.
Proof.
  intros R. pose proof (Inv_reachable s R) as I.
  repeat split; apply I.
Qed.

End InvariantFacts.

(* ===================================================================== *)
(** ** The streaming loop *)
(* ===================================================================== *)

Section LoopFacts.

Lemma closeStream_enqueued (s : State) :
  enqueued (closeStream s) = enqueued s.
Proof.
  unfold closeStream. destruct (negb (streamClosed s)); [|reflexivity].
  unfold enqueued; simpl.
  destruct (stream s) as [st|] eqn:Hst; simpl; [|rewrite Hst; reflexivity].
  destruct (Stream.close st) as [st'|e] eqn:Ec; simpl.
  - eauto using close_enqueued.
  - rewrite Hst. reflexivity.
Qed.

Lemma finally_close_finished (s : State) :
  phase (finally_close s) = Finished /\
  enqueued (finally_close s) = enqueued s.
Proof.
  split; [reflexivity|]. unfold finally_close.
  change (enqueued (set_phase Finished (closeStream s)))
    with (enqueued (closeStream s)).
  apply closeStream_enqueued.
Qed.

(** One chunk on a writable stream: its non-empty delta is enqueued, and
    a finish reason ends the loop. *)
Lemma yield_writable (s : State) (chunk : ChatCompletionChunk) :
  writable s ->
  let s' := step s (UpstreamNext (Yield chunk)) in
  enqueued s' = enqueued s ++ map encode (emitted chunk) /\
  (if has_finish_reason chunk then phase s' = Finished else writable s').
Proof.
  intros (Hph & st & Hst & Hc). simpl. rewrite Hph. simpl.
  unfold loop_chunk, emitted. rewrite Hst.
  assert (Hnone :
    let s' := if has_finish_reason chunk then finally_close s else s in
    enqueued s' = enqueued s ++ [] /\
    (if has_finish_reason chunk then phase s' = Finished else writable s')).
  { simpl. rewrite app_nil_r. destruct (has_finish_reason chunk).
    - split; apply finally_close_finished.
    - split; [reflexivity|]. split; [exact Hph|]. exists st. auto. }
  destruct (contentDelta chunk) as [d|]; [|exact Hnone].
  destruct (truthy d); [|exact Hnone].
  destruct (enqueue_writable (encode d) st Hc) as (st' & -> & Hc' & He & _).
  assert (Henq : enqueued (set_stream st' s) = enqueued s ++ [encode d]).
  { unfold enqueued; simpl. rewrite Hst. exact He. }
  simpl. destruct (has_finish_reason chunk).
  - destruct (finally_close_finished (set_stream st' s)) as [Hp' He'].
    split; [congruence | exact Hp'].
  - split; [exact Henq|]. split; [exact Hph|]. exists st'. auto.
Qed.

(** Events that neither end nor disturb the loop: chunks, reads of the
    consumer, and events nothing waits for while streaming. *)
Lemma undisturbed_writable (s : State) (e : Event) :
  writable s -> undisturbed e = true ->
  enqueued (step s e) = enqueued s ++ map encode (nonempty_deltas (yielded [e])) /\
  (if existsb has_finish_reason (yielded [e])
   then phase (step s e) = Finished else writable (step s e)).
Proof.
  intros W Hu. pose proof W as (Hph & st & Hst & Hc).
  destruct e as [| r | r | [chunk| |err] | |]; try discriminate Hu.
  - (* deadline: the timer was cleared or not, the stream is untouched *)
    simpl. rewrite app_nil_r.
    destruct (pending (timer s)); (split; [reflexivity|]);
      (split; [exact Hph|]); exists st; auto.
  - simpl. rewrite Hph, app_nil_r. auto.
  - simpl. rewrite Hph, app_nil_r. auto.
  - destruct (yield_writable s chunk W) as [He Hf].
    change (yielded [UpstreamNext (Yield chunk)]) with [chunk].
    unfold nonempty_deltas. simpl flat_map. simpl existsb.
    rewrite app_nil_r, orb_false_r. split; assumption.
  - simpl. rewrite Hst, app_nil_r. split.
    + unfold enqueued; simpl. rewrite Hst. apply read_enqueued.
    + split; [exact Hph|]. exists (Stream.read st). split; [reflexivity|].
      unfold Stream.canCloseOrEnqueue in *.
      apply andb_true_iff in Hc as [Hr Hcr].
      unfold Stream.read. rewrite Hr.
      apply negb_true_iff in Hcr.
      destruct (Stream.queue st) as [|c q]; simpl.
      * rewrite Hr, Hcr. reflexivity.
      * rewrite Hcr. destruct q; reflexivity.
Qed.

Lemma upto_finish_app (l1 l2 : list ChatCompletionChunk) :
  upto_finish (l1 ++ l2) =
  if existsb has_finish_reason l1 then upto_finish l1
  else l1 ++ upto_finish l2.
Proof.
  induction l1 as [|c l1 IH]; simpl.
  - reflexivity.
  - destruct (has_finish_reason c); simpl; [reflexivity|].
    rewrite IH. destruct (existsb has_finish_reason l1); reflexivity.
Qed.

Lemma upto_finish_none (l : list ChatCompletionChunk) :
  existsb has_finish_reason l = false -> upto_finish l = l.
Proof.
  intros H. rewrite <- (app_nil_r l) at 1. rewrite upto_finish_app, H.
  simpl. apply app_nil_r.
Qed.

(** When only the last chunk may carry a finish reason, as in a
    well-formed completion stream, every chunk is relayed. *)
Lemma upto_finish_last (chunks : list ChatCompletionChunk)
    (c : ChatCompletionChunk) :
  existsb has_finish_reason chunks = false ->
  upto_finish (chunks ++ [c]) = chunks ++ [c].
Proof.
  intros H. rewrite upto_finish_app, H. simpl.
  destruct (has_finish_reason c); reflexivity.
Qed.

Lemma yielded_app (l1 l2 : list Event) :
  yielded (l1 ++ l2) = yielded l1 ++ yielded l2.
Proof. unfold yielded. apply flat_map_app. Qed.

Lemma yielded_yields (chunks : list ChatCompletionChunk) :
  yielded (yields chunks) = chunks.
Proof.
  induction chunks as [|c l IH]; simpl; [reflexivity|].
  unfold yielded in *. simpl. rewrite IH. reflexivity.
Qed.

Lemma undisturbed_yields (chunks : list ChatCompletionChunk) :
  forallb undisturbed (yields chunks) = true.
Proof. induction chunks; simpl; auto. Qed.

(** An undisturbed stretch of the loop enqueues the non-empty deltas of
    the chunks up to the first finish reason, one chunk per delta. *)
Lemma undisturbed_run (events : list Event) (s : State) :
  writable s -> forallb undisturbed events = true ->
  enqueued (run s events) =
    enqueued s ++ map encode (nonempty_deltas (upto_finish (yielded events))) /\
  (if existsb has_finish_reason (yielded events)
   then phase (run s events) = Finished else writable (run s events)).
Proof.
  revert s; induction events as [|e events IH]; intros s W Hu.
  - simpl. rewrite app_nil_r. auto.
  - simpl in Hu. apply andb_true_iff in Hu as [Hu1 Hu2].
    rewrite run_cons.
    destruct (undisturbed_writable s e W Hu1) as [He Hf].
    change (e :: events) with ([e] ++ events).
    rewrite yielded_app, upto_finish_app, existsb_app.
    destruct (existsb has_finish_reason (yielded [e])) eqn:Hfin.
    + destruct (finished_run events _ Hf) as (Hp & He' & _).
      simpl orb. split; [|exact Hp]. rewrite He', He.
      f_equal. f_equal. unfold nonempty_deltas. f_equal.
      clear -Hfin. destruct e as [| | | [c| |] | |]; try discriminate Hfin.
      unfold yielded in *; simpl in *. rewrite orb_false_r in Hfin.
      rewrite Hfin. reflexivity.
    + destruct (IH _ Hf Hu2) as [He' Hf'].
      simpl orb. split; [|exact Hf'].
      rewrite He', He. unfold nonempty_deltas.
      rewrite flat_map_app, map_app, app_assoc. reflexivity.
Qed.

Lemma create_resolved (s : State) :
  phase s = AwaitingUpstream ->
  let s' := step s (CreateSettled (Resolved tt)) in
  writable s' /\ enqueued s' = [] /\ response s' = Some stream_response.
Proof.
  intros Hph. simpl. rewrite Hph. unfold after_create, writable. simpl.
  repeat split. exists Stream.fresh. auto.
Qed.

End LoopFacts.

(* ===================================================================== *)
(** ** Properties of the relay *)
(* ===================================================================== *)

(** *** Responses that are not streamed *)

Lemma responded_settled (text : jsstring) (code : N) (s : State)
    (later : list Event) :
  stream s = None -> timeoutId (timer s) = true ->
  run (respond text code (clearTimeout_if_set s)) later =
  respond text code (clearTimeout_if_set s).
Proof.
  intros Hst Htid. apply settled_run; unfold clearTimeout_if_set;
    rewrite Htid; simpl; auto.
Qed.

(** The statuses [valid_status] accepts are those the constructor
    accepts, and the response then has the status it was given. *)
Lemma new_NextResponse_valid (text : jsstring) (code : N) :
  valid_status code = true ->
  new_NextResponse text code = Ok (text_response text code).
Proof.
  unfold valid_status, new_NextResponse. intros H.
  apply andb_true_iff in H as [H Hnull].
  apply andb_true_iff in H as [Hlo Hhi].
  apply N.leb_le in Hlo, Hhi. apply negb_true_iff in Hnull.
  cbv zeta. rewrite (N.mod_small code 65536) by lia.
  destruct (N.ltb_spec code 200) as [Hc|_]; [lia|].
  destruct (N.ltb_spec 599 code) as [Hc|_]; [lia|].
  simpl orb. cbv iota. rewrite Hnull. reflexivity.
Qed.


(** The constant statuses of the handler are accepted, so [respond] is
    what [new NextResponse] gives for them. *)
Lemma constant_statuses_accepted (text : jsstring) (s : State) :
  respond_or_reject text 400 s = respond text 400 s /\
  respond_or_reject text 500 s = respond text 500 s /\
  respond_or_reject text 504 s = respond text 504 s.
Proof.
  unfold respond_or_reject.
  rewrite !new_NextResponse_valid by reflexivity. auto.
Qed.

Lemma respond_or_reject_settled (text : jsstring) (code : N) (s : State)
    (later : list Event) :
  stream s = None -> timeoutId (timer s) = true ->
  run (respond_or_reject text code (clearTimeout_if_set s)) later =
  respond_or_reject text code (clearTimeout_if_set s).
Proof.
  intros Hst Htid. apply settled_run;
    unfold respond_or_reject, reject, clearTimeout_if_set; rewrite Htid;
    destruct (new_NextResponse text code); simpl; auto.
Qed.

Lemma outer_catch_settled (error : Thrown) (s : State) (later : list Event) :
  stream s = None -> timeoutId (timer s) = true ->
  run (outer_catch error s) later = outer_catch error s.
Proof.
  intros Hst Htid. unfold outer_catch.
  destruct (is_abort_error error); [|destruct (err_class error)];
    try (apply responded_settled; assumption).
  apply respond_or_reject_settled; assumption.
Qed.



(** C10. When [TOGETHER_API_KEY] is unset the handler answers HTTP 500
    with the body "API key not configured"; it does so before it reads the
    request body ([request.json()] is never called), it issues no upstream
    request, and whatever happens afterwards changes nothing. *)
Theorem POST_without_api_key (events : list Event) :
  let s := run (POST None) events in
  response s = Some (text_response (lit "API key not configured") 500) /\
  body_reads s = 0%nat /\
  upstream_requests s = [] /\
  phase s = Finished.
Proof.
  simpl. rewrite settled_run by reflexivity. repeat split.
Qed.

(** The same answer is given when the variable is set to the empty
    string, which [!apiKey] does not tell from an unset one. *)
Lemma POST_with_empty_api_key :
  POST (Some []) = POST None.
Proof. reflexivity. Qed.

(** C5. While the handler waits for the body: if the parsed body's
    [messages] is missing, is not an array, or is an empty array, the
    response is HTTP 400 with the text saying that the array is required
    and cannot be empty, and no upstream request is issued, then or later. *)
Theorem invalid_messages_rejected (apiKey : option jsstring)
    (before : list Event) (clientMessages : MessagesField)
    (later : list Event) :
  phase (run (POST apiKey) before) = AwaitingBody ->
  clientMessages = NotArray JUndefined \/
  isArray clientMessages = false \/
  clientMessages = IsArray [] ->
  let s := run (POST apiKey)
             (before ++ BodySettled (Resolved (BodyValue clientMessages))
                     :: later) in
  response s =
    Some (text_response
            (lit "Invalid request body: 'messages' array is required and cannot be empty.")
            400) /\
  upstream_requests s = [] /\
  phase s = Finished.
Proof.
  intros Hph Hbad. simpl.
  pose proof (Inv_run apiKey before) as I.
  rewrite run_app, run_cons.
  set (s0 := run (POST apiKey) before) in *.
  assert (Hinv : invalid_messages clientMessages = true).
  { destruct Hbad as [-> | [H | ->]]; [reflexivity | | reflexivity].
    unfold invalid_messages. rewrite H. simpl.
    rewrite orb_true_r. reflexivity. }
  destruct (inv_await s0 I (or_introl Hph)) as (Htid & Hst & _).
  simpl step. rewrite Hph. unfold after_body. simpl destructure.
  rewrite Hinv, responded_settled by assumption.
  unfold clearTimeout_if_set. rewrite Htid. simpl.
  repeat split. apply (inv_body s0 I Hph).
Qed.

Lemma invalid_messages_rejected_witness :
  phase (run (POST key) received) = AwaitingBody /\
  let s := run (POST key)
             (received ++ BodySettled (Resolved (BodyValue (IsArray []))) :: []) in
  response s =
    Some (text_response
            (lit "Invalid request body: 'messages' array is required and cannot be empty.")
            400) /\
  upstream_requests s = [] /\
  phase s = Finished.
Proof.
  split; [reflexivity|].
  apply (invalid_messages_rejected key received (IsArray []) []);
    [reflexivity | right; right; reflexivity].
Defined.

(** The test of line 54 is exactly: missing or otherwise not an array, or
    an empty array. *)
Lemma invalid_messages_iff (clientMessages : MessagesField) :
  invalid_messages clientMessages = true <->
  (isArray clientMessages = false \/ clientMessages = IsArray []).
Proof.
  destruct clientMessages as [v | [|m ms]]; simpl.
  - unfold invalid_messages; simpl. rewrite orb_true_r. simpl. tauto.
  - split; auto.
  - split; [discriminate|]. intros [H|H]; discriminate.
Qed.

(** A body that is the JSON value [null] is outside that test: the
    destructuring throws and the outer [catch] answers HTTP 500. *)
Lemma null_body_is_server_error :
  option_map status
    (response (run (POST key) [BodySettled (Resolved BodyNull)])) = Some 500.
Proof. reflexivity. Qed.

(** Valid messages are sent upstream normalised, in one request. *)
Lemma request_carries_preparedMessages (apiKey : option jsstring)
    (before : list Event) (ms : list ClientMessage) :
  phase (run (POST apiKey) before) = AwaitingBody -> ms <> [] ->
  let s := run (POST apiKey)
             (before ++ [BodySettled (Resolved (BodyValue (IsArray ms)))]) in
  phase s = AwaitingUpstream /\
  map messages (upstream_requests s) = [preparedMessages ms].
Proof.
  intros Hph Hms. simpl.
  pose proof (Inv_run apiKey before) as I.
  rewrite run_app. set (s0 := run (POST apiKey) before) in *.
  simpl. rewrite Hph. unfold after_body. simpl destructure.
  destruct ms as [|m ms]; [congruence|].
  simpl. rewrite (inv_body s0 I Hph). auto.
Qed.



(** An upstream status the handler cannot answer with: for an API error
    with status 304 the constructor of the response throws a [TypeError],
    for status 999 a [RangeError]; the handler returns no response and its
    promise rejects. *)
Lemma upstream_status_not_a_response_status :
  let s304 := run (POST key)
                (requested ++ [CreateSettled (Rejected upstream_304)]) in
  let s999 := run (POST key)
                (requested ++ [CreateSettled (Rejected upstream_999)]) in
  response s304 = None /\
  option_map err_name (rejection s304) = Some (lit "TypeError") /\
  response s999 = None /\
  option_map err_name (rejection s999) = Some (lit "RangeError").
Proof.
  vm_compute. repeat split.
Qed.



(** *** The normaliser *)

(** C3. The normaliser's output is the fixed system message followed by
    the images of the client messages that are not skipped, in their
    order; a message is skipped exactly when it has neither content nor an
    attachment.  So its length is the number of surviving messages plus
    one, the system message is at position 0, and each surviving message
    keeps its role and its place. *)
Theorem preparedMessages_shape (clientMessages : list ClientMessage) :
  let out := preparedMessages clientMessages in
  let survivors := filter kept clientMessages in
  List.length out = (List.length survivors + 1)%nat /\
  nth_error out 0 = Some system_message /\
  tl out = map currentSdkMessage survivors /\
  map sdk_role (tl out) = map role survivors /\
  (forall m, skipped m = true <->
             has_content m = false /\ has_attachment m = false).
Proof.
  simpl. rewrite preparedMessages_eq. simpl.
  rewrite length_map.
  split; [lia|]. split; [reflexivity|]. split; [reflexivity|]. split.
  - rewrite map_map. apply map_ext. apply currentSdkMessage_role.
  - intros m. unfold skipped, has_content, has_attachment.
    destruct (truthy (content m)), (truthy_opt (data_fileDataUrl m));
      simpl; intuition congruence.
Qed.

(** In the attachment branch the content names the file, whatever the
    text of the message. *)
Lemma attachment_branch_names_file (m : ClientMessage) (d : FileData)
    (fn : jsstring) :
  role m = user -> data m = Some d ->
  truthy_opt (fileDataUrl d) = true ->
  fileName d = Some fn -> truthy fn = true ->
  sdk_content (currentSdkMessage m) = combinedText m d /\
  includes (sdk_content (currentSdkMessage m)) fn = true.
Proof.
  intros Hrole Hdata Hurl Hfn Hfn'.
  assert (E : sdk_content (currentSdkMessage m) = combinedText m d).
  { unfold currentSdkMessage, attachment_branch.
    rewrite Hdata, Hrole, Hurl, Hfn. simpl. rewrite Hfn'.
    destruct (is_image d); reflexivity. }
  split; [exact E|]. rewrite E.
  destruct (combinedText_ends_with_line m d fn Hfn) as [before ->].
  apply acknowledgement_line_includes.
Qed.

(** C4 as stated fails: an assistant message with an attachment named
    "cat.png" and empty content is forwarded with empty content; so is a
    user message whose attachment record has no file name. *)
Lemma attachment_name_lost :
  has_attachment assistant_with_file = true /\
  content assistant_with_file = [] /\
  option_map fileName (data assistant_with_file) = Some (Some (lit "cat.png")) /\
  sdk_content (currentSdkMessage assistant_with_file) = [] /\
  includes (sdk_content (currentSdkMessage assistant_with_file))
           (lit "cat.png") = false /\
  sdk_content (currentSdkMessage user_with_unnamed_file) = [].
Proof. vm_compute. repeat split. Qed.

(** C4, amended.  For a message that carries an attachment (a non-empty
    data URL) and has empty content: if its role is [user] and the
    attachment record has a non-empty file name, the content sent upstream
    is the acknowledgement line, which contains the file name; if its role
    is not [user], or the record has no file name or an empty one, the
    content sent upstream is the empty content of the message. *)
Theorem user_attachment_names_file (m : ClientMessage) (d : FileData) :
  data m = Some d ->
  truthy_opt (fileDataUrl d) = true ->
  content m = [] ->
  (forall fn, role m = user -> fileName d = Some fn -> truthy fn = true ->
     sdk_content (currentSdkMessage m) = acknowledgement_line fn /\
     includes (sdk_content (currentSdkMessage m)) fn = true) /\
  (role m <> user \/ truthy_opt (fileName d) = false ->
     sdk_content (currentSdkMessage m) = []).
Proof.
  intros Hdata Hurl Hc. split.
  - intros fn Hrole Hfn Hfn'.
    destruct (attachment_branch_names_file m d fn Hrole Hdata Hurl Hfn Hfn')
      as [E Hi].
    split; [|exact Hi].
    rewrite E. apply combinedText_empty_content; assumption.
  - intros Hno. unfold currentSdkMessage, attachment_branch.
    rewrite Hdata, Hurl.
    destruct Hno as [Hrole | Hfn].
    + destruct (role m); try congruence; simpl; exact Hc.
    + rewrite Hfn, andb_false_r. simpl. exact Hc.
Qed.

Lemma user_attachment_names_file_witness :
  sdk_content (currentSdkMessage user_with_file) =
    acknowledgement_line (lit "cat.png") /\
  includes (sdk_content (currentSdkMessage user_with_file)) (lit "cat.png") = true.
Proof.
  destruct (user_attachment_names_file user_with_file cat_png
              eq_refl eq_refl eq_refl) as [H _].
  apply (H (lit "cat.png")); reflexivity.
Defined.

(** *** What the stream callbacks leave alone *)

Lemma same_control_refl (s : State) : same_control s s.
Proof. repeat split. Qed.

Lemma same_control_trans (s1 s2 s3 : State) :
  same_control s1 s2 -> same_control s2 s3 -> same_control s1 s3.
Proof.
  intros (A1 & A2 & A3) (B1 & B2 & B3). repeat split; congruence.
Qed.

Lemma closeStream_keeps (s : State) :
  same_control s (closeStream s) /\ phase (closeStream s) = phase s.
Proof.
  unfold closeStream. destruct (negb (streamClosed s));
    [|split; [apply same_control_refl | reflexivity]].
  destruct (stream s) as [st|]; [|repeat split].
  destruct (Stream.close st); repeat split.
Qed.

Lemma inner_catch_keeps (error : Thrown) (s : State) :
  same_control s (inner_catch error s) /\
  phase (inner_catch error s) = phase s.
Proof.
  unfold inner_catch. destruct (str_eqb (err_name error) (lit "AbortError"));
    [repeat split|]. destruct (stream s); repeat split.
Qed.

Lemma finally_close_keeps (s : State) : same_control s (finally_close s).
Proof. unfold finally_close. apply (closeStream_keeps s). Qed.

Lemma loop_chunk_keeps (chunk : ChatCompletionChunk) (s : State) :
  same_control s (loop_chunk chunk s) /\
  (phase s = Streaming ->
   phase (loop_chunk chunk s) = Streaming \/
   phase (loop_chunk chunk s) = Finished).
Proof.
  unfold loop_chunk.
  assert (Hplain : forall s',
    same_control s s' -> phase s' = phase s ->
    same_control s (if has_finish_reason chunk then finally_close s' else s') /\
    (phase s = Streaming ->
     phase (if has_finish_reason chunk then finally_close s' else s')
       = Streaming \/
     phase (if has_finish_reason chunk then finally_close s' else s')
       = Finished)).
  { intros s' Hc Hp. destruct (has_finish_reason chunk).
    - split; [|auto].
      apply (same_control_trans s s' _ Hc (finally_close_keeps s')).
    - split; [exact Hc|]. intros H. left. congruence. }
  destruct (contentDelta chunk) as [d|];
    [|apply Hplain; [apply same_control_refl | reflexivity]].
  destruct (stream s) as [st|];
    [|apply Hplain; [apply same_control_refl | reflexivity]].
  destruct (truthy d);
    [|apply Hplain; [apply same_control_refl | reflexivity]].
  destruct (Stream.enqueue (encode d) st) as [st'|e'].
  - apply Hplain; repeat split.
  - split; [|auto].
    apply (same_control_trans s (inner_catch e' s) _
             (proj1 (inner_catch_keeps e' s)) (finally_close_keeps _)).
Qed.

Lemma after_next_keeps (n : Next) (s : State) :
  same_control s (after_next n s) /\
  (phase s = Streaming ->
   phase (after_next n s) = Streaming \/ phase (after_next n s) = Finished).
Proof.
  destruct n as [chunk| |err]; unfold after_next.
  - apply loop_chunk_keeps.
  - split; [apply finally_close_keeps | auto].
  - split; [|auto].
    apply (same_control_trans s (inner_catch err s) _
             (proj1 (inner_catch_keeps err s)) (finally_close_keeps _)).
Qed.

Lemma streaming_response_step (s : State) (e : Event) :
  phase s = Streaming \/ phase s = Finished ->
  response (step s e) = response s /\
  (phase (step s e) = Streaming \/ phase (step s e) = Finished).
Proof.
  intros Hp. destruct e as [| r | r | n | |]; unfold step.
  - destruct (pending (timer s)); auto.
  - destruct Hp as [Hp|Hp]; rewrite Hp; auto.
  - destruct Hp as [Hp|Hp]; rewrite Hp; auto.
  - destruct Hp as [Hp|Hp]; rewrite Hp; auto.
    destruct (after_next_keeps n s) as [(Hr & _) Hq]. auto.
  - destruct (stream s); auto.
  - destruct (stream s) as [st|]; auto.
    destruct (Stream.cancel st) as [st'|]; auto.
    unfold cancel_callback.
    destruct (negb (aborted (abortController (set_stream st' s)))); auto.
Qed.

Lemma streaming_response_run (events : list Event) (s : State) :
  phase s = Streaming \/ phase s = Finished ->
  response (run s events) = response s /\
  (phase (run s events) = Streaming \/ phase (run s events) = Finished).
Proof.
  revert s; induction events as [|e l IH]; intros s Hp; [auto|].
  rewrite run_cons.
  destruct (streaming_response_step s e Hp) as [Hr Hp'].
  destruct (IH _ Hp') as [Hr' Hp'']. split; [congruence | exact Hp''].
Qed.

(** *** Streaming *)

(** C1 as stated fails: when a chunk with a finish reason is followed by
    a chunk with a non-empty delta, the later delta is not enqueued. *)
Lemma delta_after_finish_dropped :
  let chunks := [final_chunk "Hi"; text_chunk " there"] in
  let s := run (POST key)
             (requested ++ CreateSettled (Resolved tt)
                        :: yields chunks ++ [UpstreamNext Done]) in
  List.concat (enqueued s) = encode (lit "Hi") /\
  List.concat (map encode (nonempty_deltas chunks)) = encode (lit "Hi there") /\
  List.concat (enqueued s) <> List.concat (map encode (nonempty_deltas chunks)).
Proof. vm_compute. repeat split. discriminate. Qed.

(** Once [create] has resolved, as long as the upstream neither fails nor
    the consumer cancels, whatever else happens in between, the chunks
    enqueued when the upstream ends are the encodings of the non-empty
    deltas up to the first finish reason. *)
Lemma relay_enqueues_deltas_interleaved (apiKey : option jsstring)
    (before streaming later : list Event) :
  phase (run (POST apiKey) before) = AwaitingUpstream ->
  forallb undisturbed streaming = true ->
  let s := run (POST apiKey)
             (before ++ CreateSettled (Resolved tt)
                     :: streaming ++ UpstreamNext Done :: later) in
  let deltas := nonempty_deltas (upto_finish (yielded streaming)) in
  enqueued s = map encode deltas /\
  List.concat (enqueued s) = flat_map encode deltas /\
  Forall (fun d => truthy d = true) deltas /\
  response s = Some stream_response.
Proof.
  intros Hph Hu. simpl.
  rewrite run_app, run_cons, run_app, run_cons.
  set (s0 := run (POST apiKey) before) in *.
  destruct (create_resolved s0 Hph) as (W & He0 & Hr0).
  set (s1 := step s0 (CreateSettled (Resolved tt))) in *.
  destruct (undisturbed_run streaming s1 W Hu) as [He Hf].
  rewrite He0 in He. simpl in He.
  set (s2 := run s1 streaming) in *.
  assert (Hdone : phase (step s2 (UpstreamNext Done)) = Finished /\
                  enqueued (step s2 (UpstreamNext Done)) = enqueued s2).
  { destruct (existsb has_finish_reason (yielded streaming)).
    - destruct (finished_step s2 (UpstreamNext Done) Hf) as (H1 & H2 & _).
      split; assumption.
    - destruct Hf as (Hp2 & _). simpl. rewrite Hp2.
      apply finally_close_finished. }
  destruct Hdone as [Hp3 He3].
  destruct (finished_run later _ Hp3) as (_ & He4 & _).
  assert (Henq : enqueued (run (step s2 (UpstreamNext Done)) later) =
                 map encode (nonempty_deltas (upto_finish (yielded streaming)))).
  { rewrite He4, He3. exact He. }
  split; [exact Henq|]. split.
  - rewrite Henq. rewrite flat_map_concat_map. reflexivity.
  - split.
    + unfold nonempty_deltas. apply Forall_flat_map.
      apply Forall_forall. intros c _. unfold emitted.
      destruct (contentDelta c) as [d|]; [|constructor].
      destruct (truthy d) eqn:Ht; constructor; auto.
    + rewrite <- run_cons. unfold s2. rewrite <- run_app.
      rewrite (proj1 (streaming_response_run _ s1 (or_introl (proj1 W)))).
      exact Hr0.
Qed.

(** C1, amended.  For every finite sequence of chunks the upstream yields
    before it ends, the chunks the relay enqueues are the encodings of the
    non-empty content deltas of the upstream chunks up to and including the
    first one that carries a finish reason (of all chunks when none does),
    one enqueued chunk per delta and in the order received; so the bytes
    are the concatenation of these encodings.  Empty and absent deltas
    contribute nothing, and the response is the 200 stream response. *)
Theorem relay_enqueues_deltas (apiKey : option jsstring)
    (before : list Event) (chunks : list ChatCompletionChunk)
    (later : list Event) :
  phase (run (POST apiKey) before) = AwaitingUpstream ->
  let s := run (POST apiKey)
             (before ++ CreateSettled (Resolved tt)
                     :: yields chunks ++ UpstreamNext Done :: later) in
  let deltas := nonempty_deltas (upto_finish chunks) in
  enqueued s = map encode deltas /\
  List.concat (enqueued s) = flat_map encode deltas /\
  Forall (fun d => truthy d = true) deltas /\
  response s = Some stream_response.
Proof.
  intros Hph.
  pose proof (relay_enqueues_deltas_interleaved apiKey before (yields chunks)
                later Hph (undisturbed_yields chunks)) as H.
  rewrite yielded_yields in H. exact H.
Qed.

(** The scenario of the specification: "Hello" is answered by the deltas
    "Hi" and " there" and a finish marker; the caller receives the bytes of
    "Hi there" with status 200. *)
Lemma relay_enqueues_deltas_witness :
  let s := run (POST key)
             (requested ++ CreateSettled (Resolved tt)
                :: yields [text_chunk "Hi"; text_chunk " there"; stop_chunk]
                ++ UpstreamNext Done :: []) in
  phase (run (POST key) requested) = AwaitingUpstream /\
  List.concat (enqueued s) = encode (lit "Hi there") /\
  option_map status (response s) = Some 200.
Proof.
  split; [reflexivity|].
  destruct (relay_enqueues_deltas key requested
              [text_chunk "Hi"; text_chunk " there"; stop_chunk] []
              eq_refl) as (_ & H & _ & Hr).
  split.
  - exact H.
  - exact (f_equal (option_map status) Hr).
Defined.

(** A chunk with a finish reason that arrives while the loop runs
    undisturbed ends it. *)
Lemma finish_reason_ends_loop (apiKey : option jsstring)
    (before streaming : list Event) (chunk : ChatCompletionChunk) :
  phase (run (POST apiKey) before) = AwaitingUpstream ->
  forallb undisturbed streaming = true ->
  existsb has_finish_reason (yielded streaming) = false ->
  has_finish_reason chunk = true ->
  let s := run (POST apiKey)
             (before ++ CreateSettled (Resolved tt)
                     :: streaming ++ [UpstreamNext (Yield chunk)]) in
  phase s = Finished /\
  enqueued s = map encode (nonempty_deltas (yielded streaming))
                 ++ map encode (emitted chunk) /\
  (forall n, step s (UpstreamNext n) = s) /\
  (forall later, enqueued (run s later) = enqueued s).
Proof.
  intros Hph Hu Hnone Hfin. simpl.
  rewrite run_app, run_cons.
  set (s0 := run (POST apiKey) before) in *.
  destruct (create_resolved s0 Hph) as (W & He0 & _).
  set (s1 := step s0 (CreateSettled (Resolved tt))) in *.
  assert (Hu' : forallb undisturbed (streaming ++ [UpstreamNext (Yield chunk)])
                = true).
  { rewrite forallb_app, Hu. reflexivity. }
  destruct (undisturbed_run _ s1 W Hu') as [He Hf].
  rewrite yielded_app in He, Hf.
  change (yielded [UpstreamNext (Yield chunk)]) with [chunk] in He, Hf.
  rewrite upto_finish_app, Hnone in He.
  rewrite existsb_app, Hnone in Hf. simpl in He, Hf.
  rewrite Hfin in He, Hf. rewrite He0 in He. simpl in He.
  set (s2 := run s1 (streaming ++ [UpstreamNext (Yield chunk)])) in *.
  split; [exact Hf|]. split.
  - rewrite He. unfold nonempty_deltas.
    rewrite flat_map_app, map_app. simpl. rewrite app_nil_r. reflexivity.
  - split.
    + intros n. simpl. rewrite Hf. reflexivity.
    + intros later. apply (finished_run later s2 Hf).
Qed.

(** C7. For every sequence of chunks the upstream yields once [create]
    has resolved: if [chunk] is the first one that carries a finish reason,
    the relay's loop ends with it.  The delta of [chunk], when non-empty,
    is still enqueued, after the deltas of the chunks before it; no later
    answer of the upstream iterator is consumed; and neither the chunks
    that follow nor anything else adds a byte to the output. *)
Theorem finish_reason_ends_relay (apiKey : option jsstring)
    (before : list Event) (pre : list ChatCompletionChunk)
    (chunk : ChatCompletionChunk) (post : list ChatCompletionChunk)
    (later : list Event) :
  phase (run (POST apiKey) before) = AwaitingUpstream ->
  existsb has_finish_reason pre = false ->
  has_finish_reason chunk = true ->
  let s := run (POST apiKey)
             (before ++ CreateSettled (Resolved tt)
                     :: yields (pre ++ [chunk])) in
  phase s = Finished /\
  enqueued s = map encode (nonempty_deltas pre) ++ map encode (emitted chunk) /\
  (forall n, step s (UpstreamNext n) = s) /\
  enqueued (run s (yields post ++ later)) = enqueued s /\
  enqueued (run (POST apiKey)
              (before ++ CreateSettled (Resolved tt)
                      :: yields (pre ++ chunk :: post) ++ later))
    = map encode (nonempty_deltas pre) ++ map encode (emitted chunk).
Proof.
  intros Hph Hnone Hfin. cbv zeta.
  assert (Hy : yields (pre ++ [chunk]) = yields pre ++ [UpstreamNext (Yield chunk)]).
  { unfold yields. rewrite map_app. reflexivity. }
  rewrite Hy.
  assert (Hnone' : existsb has_finish_reason (yielded (yields pre)) = false).
  { rewrite yielded_yields. exact Hnone. }
  destruct (finish_reason_ends_loop apiKey before (yields pre) chunk Hph
              (undisturbed_yields pre) Hnone' Hfin) as (H1 & H2 & H3 & H4).
  rewrite yielded_yields in H2.
  split; [exact H1|]. split; [exact H2|]. split; [exact H3|].
  split; [apply H4|].
  replace (before ++ CreateSettled (Resolved tt)
             :: yields (pre ++ chunk :: post) ++ later)
    with ((before ++ CreateSettled (Resolved tt)
             :: yields pre ++ [UpstreamNext (Yield chunk)])
          ++ (yields post ++ later)).
  - rewrite run_app, H4. exact H2.
  - unfold yields. rewrite !map_app. simpl.
    rewrite <- !app_assoc. simpl. rewrite <- !app_assoc. reflexivity.
Qed.

Lemma finish_reason_ends_relay_witness :
  let s := run (POST key)
             (requested ++ CreateSettled (Resolved tt)
                :: yields ([text_chunk "Hi"] ++ [final_chunk " there"])) in
  phase (run (POST key) requested) = AwaitingUpstream /\
  phase s = Finished /\
  enqueued s = [encode (lit "Hi"); encode (lit " there")] /\
  enqueued (run s (yields [text_chunk "!"] ++ [UpstreamNext Done]))
    = enqueued s.
Proof.
  destruct (finish_reason_ends_relay key requested
              [text_chunk "Hi"] (final_chunk " there") [text_chunk "!"]
              [UpstreamNext Done]
              eq_refl eq_refl eq_refl) as (H1 & H2 & _ & H4 & _).
  split; [reflexivity|]. split; [exact H1|]. split; [exact H2 | exact H4].
Defined.

(** *** The deadline *)

(** C2 as stated fails: a deadline that elapses after the first delta
    finds the timer cleared; nothing is aborted and the relay goes on
    streaming until the upstream ends. *)
Lemma deadline_ignored_while_streaming :
  let s := run (POST key)
             (requested ++ [CreateSettled (Resolved tt);
                            UpstreamNext (Yield (text_chunk "Hi"));
                            DeadlineElapsed]) in
  phase s = Streaming /\
  signal_aborted s = false /\
  abort_calls (abortController s) = [] /\
  let s' := run s [UpstreamNext (Yield (text_chunk " there"));
                   UpstreamNext Done] in
  enqueued s' = [encode (lit "Hi"); encode (lit " there")] /\
  terminations s' = [Stream.CloseAccepted] /\
  signal_aborted s' = false.
Proof. vm_compute. repeat split. Qed.

(** C2, amended.  The deadline is armed from the start of [POST] until
    [create] settles.  If it elapses while the handler waits for the body
    or for [create], the abort controller is aborted, by the one call
    [abort("API Call Timeout")]; if [create] then rejects with an abort
    error the response is HTTP 504.  When [create] resolves the timer is
    cleared: a deadline that elapses while deltas are streamed changes
    nothing. *)
Theorem deadline_armed_until_create_settles (apiKey : option jsstring)
    (before : list Event) :
  let s := run (POST apiKey) before in
  (phase s = AwaitingBody \/ phase s = AwaitingUpstream ->
   let s' := step s DeadlineElapsed in
   signal_aborted s' = true /\
   abort_calls (abortController s') = [lit "API Call Timeout"] /\
   phase s' = phase s) /\
  (phase s = AwaitingUpstream ->
   forall error, is_abort_error error = true ->
   response (run s [DeadlineElapsed; CreateSettled (Rejected error)]) =
   Some (text_response (lit "The request to the AI service timed out.") 504)) /\
  (phase s = Streaming -> step s DeadlineElapsed = s).
Proof.
  cbv zeta. pose proof (Inv_run apiKey before) as I.
  set (s := run (POST apiKey) before) in *.
  split; [|split].
  - intros Hph.
    destruct (inv_await s I Hph) as (_ & _ & _ & [Hp | [Ha Hc]]).
    + destruct (inv_pending s I Hp) as [Ha _].
      unfold step. rewrite Hp. unfold on_timeout, signal_aborted. simpl.
      rewrite (inv_calls s I Ha). auto.
    + unfold step. destruct (pending (timer s)) eqn:Hp.
      * destruct (inv_pending s I Hp) as [Ha' _]. congruence.
      * auto.
  - intros Hph error Hab.
    assert (Hph' : phase (step s DeadlineElapsed) = AwaitingUpstream).
    { unfold step. destruct (pending (timer s)); exact Hph. }
    rewrite !run_cons. remember (step s DeadlineElapsed) as s1 eqn:E1.
    simpl. rewrite Hph'. unfold after_create, outer_catch.
    rewrite Hab. reflexivity.
  - intros Hph. unfold step.
    destruct (pending (timer s)) eqn:Hp; [|reflexivity].
    destruct (inv_pending s I Hp) as [_ [H | H]]; congruence.
Qed.

Lemma deadline_armed_until_create_settles_witness :
  let s := run (POST key) requested in
  phase s = AwaitingUpstream /\
  signal_aborted (step s DeadlineElapsed) = true /\
  abort_calls (abortController (step s DeadlineElapsed))
    = [lit "API Call Timeout"].
Proof.
  destruct (deadline_armed_until_create_settles key requested) as (H & _ & _).
  destruct (H (or_intror eq_refl)) as (H1 & H2 & _).
  split; [reflexivity|]. split; [exact H1 | exact H2].
Defined.

(** *** Closing the stream *)

Lemma closeStream_twice (s : State) :
  closeStream (closeStream s) = closeStream s.
Proof.
  unfold closeStream at 1.
  assert (H : streamClosed (closeStream s) = true).
  { unfold closeStream. destruct (streamClosed s) eqn:E; simpl; auto. }
  rewrite H. reflexivity.
Qed.

Lemma closeStream_terminations (s : State) :
  Inv s -> (List.length (terminations (closeStream s)) <= 1)%nat.
Proof.
  intros I. destruct (streamClosed s) eqn:Hsc.
  - unfold closeStream. rewrite Hsc. simpl. apply (inv_term s I).
  - pose proof (inv_open s I Hsc) as H0. unfold terminations in *.
    destruct (stream s) as [st|] eqn:Hst.
    + destruct (closeStream_open s st Hsc Hst)
        as [(_ & st' & _ & -> & Ht) | (_ & ->)]; simpl.
      * rewrite Ht, H0. simpl. lia.
      * rewrite Hst, H0. simpl. lia.
    + unfold closeStream. rewrite Hsc, Hst. simpl. rewrite Hst. simpl. lia.
Qed.

(** C8. In every execution [closeStream] is idempotent: called again it
    returns the state unchanged, so the caller-facing stream sees no second
    termination event; the stream has at most one termination event after
    it.  This holds when the first call closes the stream gracefully and
    when it follows [controller.error] in the [catch] of [start]. *)
Theorem closeStream_idempotent (apiKey : option jsstring)
    (events : list Event) :
  let s := run (POST apiKey) events in
  closeStream (closeStream s) = closeStream s /\
  terminations (closeStream (closeStream s)) = terminations (closeStream s) /\
  (List.length (terminations (closeStream s)) <= 1)%nat /\
  (forall error, phase s = Streaming ->
     let s1 := closeStream (inner_catch error s) in
     closeStream s1 = s1 /\
     (List.length (terminations s1) <= 1)%nat).
Proof.
  cbv zeta. pose proof (Inv_run apiKey events) as I.
  set (s := run (POST apiKey) events) in *.
  split; [apply closeStream_twice|].
  split; [rewrite closeStream_twice; reflexivity|].
  split; [apply closeStream_terminations; exact I|].
  intros error Hph. split; [apply closeStream_twice|].
  pose proof (inv_term _ (Inv_inner_catch error s I Hph)) as H.
  exact H.
Qed.

Lemma closeStream_idempotent_witness :
  let s := run (POST key)
             (requested ++ [CreateSettled (Resolved tt);
                            UpstreamNext (Yield (text_chunk "Hi"))]) in
  phase s = Streaming /\
  terminations (closeStream (closeStream s)) = [Stream.CloseAccepted] /\
  terminations (closeStream (closeStream (inner_catch upstream_429 s)))
    = [Stream.ErrorAccepted upstream_429].
Proof.
  set (s := run (POST key)
              (requested ++ [CreateSettled (Resolved tt);
                             UpstreamNext (Yield (text_chunk "Hi"))])).
  destruct (closeStream_idempotent key
              (requested ++ [CreateSettled (Resolved tt);
                             UpstreamNext (Yield (text_chunk "Hi"))]))
    as (_ & H2 & _ & H4).
  destruct (H4 upstream_429 eq_refl) as [H5 _].
  cbv zeta. fold s in H2, H5.
  split; [reflexivity|]. split.
  - rewrite H2. reflexivity.
  - rewrite H5. reflexivity.
Defined.

(** *** The consumer cancels *)

Ltac crush_step :=
  repeat (simpl;
          match goal with
          | |- context [match ?x with _ => _ end] => destruct x
          end);
  simpl; auto.

(** Only the timer's callback and the [cancel] callback touch the abort
    controller; neither does once the timer is off and the signal aborted. *)
Lemma aborted_step (s : State) (e : Event) :
  pending (timer s) = false -> aborted (abortController s) = true ->
  pending (timer (step s e)) = false /\
  abortController (step s e) = abortController s.
Proof.
  intros Hp Ha. destruct e as [| r | r | n | |]; unfold step.
  - rewrite Hp. auto.
  - destruct (phase s); auto. unfold after_body, outer_catch,
      clearTimeout_if_set, respond, respond_or_reject, reject. crush_step.
  - destruct (phase s); auto. unfold after_create, outer_catch,
      clearTimeout_if_set, respond, respond_or_reject, reject. crush_step.
  - destruct (phase s); auto.
    destruct (after_next_keeps n s) as [(_ & Ht & Hc) _].
    rewrite Ht, Hc. auto.
  - destruct (stream s); auto.
  - destruct (stream s) as [st|]; auto.
    destruct (Stream.cancel st); auto.
    unfold cancel_callback. simpl. rewrite Ha. simpl. auto.
Qed.

Lemma aborted_run (events : list Event) (s : State) :
  pending (timer s) = false -> aborted (abortController s) = true ->
  abortController (run s events) = abortController s.
Proof.
  revert s; induction events as [|e l IH]; intros s Hp Ha; [reflexivity|].
  rewrite run_cons. destruct (aborted_step s e Hp Ha) as [Hp' E].
  rewrite IH; [exact E | exact Hp' | congruence].
Qed.

Lemma set_stream_same (s : State) (st : Stream.t) :
  stream s = Some st -> set_stream st s = s.
Proof. intros H. destruct s; simpl in *. subst. reflexivity. Qed.

(** A stream that has left the readable state takes no more chunks. *)
Lemma unwritable_step (s : State) (e : Event) :
  Inv s -> unwritable s ->
  unwritable (step s e) /\ enqueued (step s e) = enqueued s.
Proof.
  intros I (st & Hst & Hr).
  assert (Hc : Stream.canCloseOrEnqueue st = false).
  { unfold Stream.canCloseOrEnqueue. rewrite Hr. reflexivity. }
  assert (Hkeep : unwritable s /\ enqueued s = enqueued s).
  { split; [exists st; auto | reflexivity]. }
  assert (Hclose : closeStream s = s \/ closeStream s = set_streamClosed true s).
  { unfold closeStream. destruct (negb (streamClosed s)); auto.
    rewrite Hst. unfold Stream.close. rewrite Hc. auto. }
  assert (Hfin : unwritable (finally_close s) /\
                 enqueued (finally_close s) = enqueued s).
  { unfold finally_close. destruct Hclose as [-> | ->];
      (split; [exists st; auto | unfold enqueued; simpl; reflexivity]). }
  assert (Hcatch : forall err, inner_catch err s = s).
  { intros err. unfold inner_catch.
    destruct (str_eqb (err_name err) (lit "AbortError")); [reflexivity|].
    rewrite Hst. unfold Stream.error. rewrite Hr.
    apply set_stream_same. exact Hst. }
  destruct e as [| r | r | n | |]; unfold step.
  - destruct (pending (timer s)); [|exact Hkeep].
    split; [exists st; auto | reflexivity].
  - destruct (phase s) eqn:Hph; try exact Hkeep.
    destruct (inv_await s I (or_introl Hph)) as (_ & Hn & _). congruence.
  - destruct (phase s) eqn:Hph; try exact Hkeep.
    destruct (inv_await s I (or_intror Hph)) as (_ & Hn & _). congruence.
  - destruct (phase s) eqn:Hph; try exact Hkeep.
    destruct n as [chunk| |err]; unfold after_next.
    + unfold loop_chunk. rewrite Hst.
      assert (Hplain :
        unwritable (if has_finish_reason chunk then finally_close s else s) /\
        enqueued (if has_finish_reason chunk then finally_close s else s)
          = enqueued s).
      { destruct (has_finish_reason chunk); assumption. }
      destruct (contentDelta chunk) as [d|]; [|exact Hplain].
      destruct (truthy d); [|exact Hplain].
      rewrite (enqueue_unwritable _ _ Hc), Hcatch. exact Hfin.
    + exact Hfin.
    + rewrite Hcatch. exact Hfin.
  - rewrite Hst. unfold Stream.read. rewrite Hr.
    rewrite (set_stream_same s st Hst). exact Hkeep.
  - rewrite Hst. unfold Stream.cancel. rewrite Hr. exact Hkeep.
Qed.

Lemma unwritable_run (events : list Event) (s : State) :
  Inv s -> unwritable s -> enqueued (run s events) = enqueued s.
Proof.
  revert s; induction events as [|e l IH]; intros s I U; [reflexivity|].
  rewrite run_cons. destruct (unwritable_step s e I U) as [U' E].
  rewrite IH; [exact E | apply Inv_step; exact I | exact U'].
Qed.

(** C9 as stated fails: the [cancel] callback aborts the signal, but it
    does not stop the relay from consuming.  After the consumer has
    cancelled, the loop of [start] is still waiting for the upstream: it
    takes a chunk without content and goes on waiting, and it is the
    chunk with the finish reason, taken after the cancel, that ends it. *)
Lemma cancelled_relay_keeps_consuming :
  let s := run (POST key) streaming_hi in
  let s1 := step s ConsumerCancel in
  let s2 := step s1 (UpstreamNext (Yield role_chunk)) in
  let s3 := step s2 (UpstreamNext (Yield stop_chunk)) in
  phase s = Streaming /\
  signal_aborted s1 = true /\
  phase s1 = Streaming /\
  phase s2 = Streaming /\
  streamClosed s2 = false /\
  phase s3 = Finished /\
  streamClosed s3 = true.
Proof.
  vm_compute. repeat split.
Qed.

(** C9, amended.  When the consumer cancels while the relay is streaming,
    the [cancel] callback aborts the upstream request through the abort
    controller: afterwards the signal is aborted; [abort] is called once,
    with "Client cancelled stream", unless the signal was aborted already,
    in which case it is not called; no further call of [abort] follows; and
    no chunk is written to the stream any more.  The cancel does not end
    the loop of [start]: the relay still waits for the upstream and takes
    what it yields; a chunk without content and without finish reason
    leaves it waiting, and a chunk with a non-empty delta (whose [enqueue]
    throws) or with a finish reason ends it. *)
Theorem consumer_cancel_aborts_upstream (apiKey : option jsstring)
    (before later : list Event) :
  let s := run (POST apiKey) before in
  phase s = Streaming ->
  let s' := step s ConsumerCancel in
  signal_aborted s' = true /\
  abort_calls (abortController s') =
    (if signal_aborted s then abort_calls (abortController s)
     else [lit "Client cancelled stream"]) /\
  (List.length (abort_calls (abortController s')) <= 1)%nat /\
  abort_calls (abortController (run s' later)) =
    abort_calls (abortController s') /\
  enqueued (run s' later) = enqueued s' /\
  phase s' = Streaming /\
  (forall chunk,
     emitted chunk = [] -> has_finish_reason chunk = false ->
     step s' (UpstreamNext (Yield chunk)) = s') /\
  (forall chunk,
     emitted chunk <> [] \/ has_finish_reason chunk = true ->
     phase (step s' (UpstreamNext (Yield chunk))) = Finished).
Proof.
  cbv zeta. intros Hph. pose proof (Inv_run apiKey before) as I.
  set (s := run (POST apiKey) before) in *.
  pose proof (Inv_step s ConsumerCancel I) as I'.
  destruct (inv_streaming s I Hph) as (_ & st & Hst & _ & _ & Hab).
  assert (Hp : pending (timer s) = false).
  { destruct (pending (timer s)) eqn:Hp; [|reflexivity].
    destruct (inv_pending s I Hp) as [_ [H | H]]; congruence. }
  assert (Hcancel :
    signal_aborted (step s ConsumerCancel) = true /\
    abort_calls (abortController (step s ConsumerCancel)) =
      (if signal_aborted s then abort_calls (abortController s)
       else [lit "Client cancelled stream"]) /\
    pending (timer (step s ConsumerCancel)) = false /\
    unwritable (step s ConsumerCancel) /\
    phase (step s ConsumerCancel) = Streaming).
  { unfold step, signal_aborted. rewrite Hst.
    destruct (Stream.cancel st) as [st'|] eqn:Ec.
    - destruct (cancel_some st st' Ec) as (_ & Hs' & _).
      assert (Hr' : Stream.is_readable st' = false).
      { unfold Stream.is_readable. rewrite Hs'. reflexivity. }
      unfold cancel_callback. simpl.
      destruct (aborted (abortController s)) eqn:Ha; simpl.
      + repeat split; auto. exists st'. auto.
      + rewrite (inv_calls s I Ha). repeat split; auto. exists st'. auto.
    - assert (Hr : Stream.is_readable st = false).
      { unfold Stream.cancel in Ec.
        destruct (Stream.is_readable st); [discriminate | reflexivity]. }
      rewrite (Hab Hr). repeat split; auto. exists st. auto. }
  destruct Hcancel as (H1 & H2 & H3 & H4 & H5).
  set (s' := step s ConsumerCancel) in *.
  split; [exact H1|]. split; [exact H2|].
  split; [apply (inv_once _ I')|].
  split; [rewrite aborted_run; auto|].
  split; [apply unwritable_run; assumption|].
  split; [exact H5|].
  destruct H4 as (st1 & Hst1 & Hr1).
  assert (Hc1 : Stream.canCloseOrEnqueue st1 = false).
  { unfold Stream.canCloseOrEnqueue. rewrite Hr1. reflexivity. }
  split.
  - intros chunk Hem Hfin. unfold step. rewrite H5.
    unfold after_next, loop_chunk. rewrite Hst1, Hfin.
    unfold emitted in Hem.
    destruct (contentDelta chunk) as [d|]; [|reflexivity].
    destruct (truthy d); [discriminate | reflexivity].
  - intros chunk Hor. unfold step. rewrite H5.
    unfold after_next, loop_chunk. rewrite Hst1.
    unfold emitted in Hor.
    destruct (contentDelta chunk) as [d|].
    + destruct (truthy d).
      * rewrite (enqueue_unwritable _ _ Hc1). reflexivity.
      * destruct Hor as [Hor | Hor]; [congruence|].
        rewrite Hor. reflexivity.
    + destruct Hor as [Hor | Hor]; [congruence|].
      rewrite Hor. reflexivity.
Qed.

Lemma consumer_cancel_aborts_upstream_witness :
  let s := run (POST key)
             (requested ++ [CreateSettled (Resolved tt);
                            UpstreamNext (Yield (text_chunk "Hi"))]) in
  let s' := step s ConsumerCancel in
  phase s = Streaming /\
  signal_aborted s' = true /\
  abort_calls (abortController s') = [lit "Client cancelled stream"] /\
  enqueued (run s' [UpstreamNext (Yield (text_chunk " there"));
                    ConsumerCancel; UpstreamNext Done]) = [encode (lit "Hi")] /\
  phase s' = Streaming /\
  step s' (UpstreamNext (Yield role_chunk)) = s' /\
  phase (step s' (UpstreamNext (Yield (text_chunk " there")))) = Finished.
Proof.
  destruct (consumer_cancel_aborts_upstream key
              (requested ++ [CreateSettled (Resolved tt);
                             UpstreamNext (Yield (text_chunk "Hi"))])
              [UpstreamNext (Yield (text_chunk " there"));
               ConsumerCancel; UpstreamNext Done]
              eq_refl) as (H1 & H2 & _ & _ & H5 & H6 & H7 & H8).
  cbv zeta. split; [reflexivity|]. split; [exact H1|]. split; [exact H2|].
  split; [rewrite H5; reflexivity|].
  split; [exact H6|].
  split; [apply H7; reflexivity|].
  apply H8. left. discriminate.
Defined.

(* ===================================================================== *)
(** ** Further properties of the route *)
(* ===================================================================== *)

Section RouteFacts.

Lemma same_requests_refl (s : State) : same_requests s s.
Proof. repeat split; auto. Qed.

Lemma same_requests_trans (s1 s2 s3 : State) :
  same_requests s1 s2 -> same_requests s2 s3 -> same_requests s1 s3.
Proof.
  intros (A1 & A2 & A3) (B1 & B2 & B3).
  repeat split; try congruence; tauto.
Qed.

Lemma closeStream_requests (s : State) : same_requests s (closeStream s).
Proof.
  unfold closeStream. destruct (negb (streamClosed s));
    [|apply same_requests_refl].
  destruct (stream s) as [st|] eqn:Hst.
  - destruct (Stream.close st); unfold same_requests; simpl;
      rewrite ?Hst; repeat split; auto; discriminate.
  - unfold same_requests; simpl. rewrite Hst. repeat split; auto.
Qed.

Lemma inner_catch_requests (error : Thrown) (s : State) :
  same_requests s (inner_catch error s).
Proof.
  unfold inner_catch. destruct (str_eqb (err_name error) (lit "AbortError"));
    [apply same_requests_refl|].
  destruct (stream s) as [st|] eqn:Hst.
  - unfold same_requests; simpl. rewrite Hst.
    repeat split; auto; discriminate.
  - apply same_requests_refl.
Qed.

Lemma finally_close_requests (s : State) : same_requests s (finally_close s).
Proof. unfold finally_close. apply (closeStream_requests s). Qed.

Lemma loop_chunk_requests (chunk : ChatCompletionChunk) (s : State) :
  same_requests s (loop_chunk chunk s).
Proof.
  unfold loop_chunk.
  assert (Hplain : forall s',
    same_requests s s' ->
    same_requests s (if has_finish_reason chunk then finally_close s' else s')).
  { intros s' H. destruct (has_finish_reason chunk); [|exact H].
    apply (same_requests_trans s s' _ H (finally_close_requests s')). }
  destruct (contentDelta chunk) as [d|];
    [|apply Hplain, same_requests_refl].
  destruct (stream s) as [st|] eqn:Hst;
    [|apply Hplain, same_requests_refl].
  destruct (truthy d); [|apply Hplain, same_requests_refl].
  destruct (Stream.enqueue (encode d) st) as [st'|e'].
  - apply Hplain. unfold same_requests; simpl. rewrite Hst.
    repeat split; auto; discriminate.
  - apply (same_requests_trans s (inner_catch e' s) _
             (inner_catch_requests e' s) (finally_close_requests _)).
Qed.

Lemma after_next_requests (n : Next) (s : State) :
  same_requests s (after_next n s).
Proof.
  destruct n as [chunk| |err]; unfold after_next.
  - apply loop_chunk_requests.
  - apply finally_close_requests.
  - apply (same_requests_trans s (inner_catch err s) _
             (inner_catch_requests err s) (finally_close_requests _)).
Qed.

(** Once the handler is past the body, no event issues a request, reads
    the body again, or creates or drops the stream. *)
Lemma past_body_step (s : State) (e : Event) :
  Inv s -> phase s = Streaming \/ phase s = Finished ->
  same_requests s (step s e).
Proof.
  intros I Hp. destruct e as [| r | r | n | |]; unfold step.
  - destruct (pending (timer s)); [|apply same_requests_refl].
    unfold on_timeout, same_requests; simpl. repeat split; auto.
  - destruct Hp as [Hp|Hp]; rewrite Hp; apply same_requests_refl.
  - destruct Hp as [Hp|Hp]; rewrite Hp; apply same_requests_refl.
  - destruct Hp as [Hp|Hp]; rewrite Hp;
      [apply after_next_requests | apply same_requests_refl].
  - destruct (stream s) as [st|] eqn:Hst; [|apply same_requests_refl].
    unfold same_requests; simpl. rewrite Hst.
    repeat split; auto; discriminate.
  - destruct (stream s) as [st|] eqn:Hst; [|apply same_requests_refl].
    destruct (Stream.cancel st) as [st'|]; [|apply same_requests_refl].
    unfold cancel_callback.
    destruct (negb (aborted (abortController (set_stream st' s))));
      unfold same_requests; simpl; rewrite Hst;
      repeat split; auto; discriminate.
Qed.

Lemma past_body_run (events : list Event) (s : State) :
  Inv s -> phase s = Streaming \/ phase s = Finished ->
  same_requests s (run s events) /\ same_control_response s (run s events).
Proof.
  revert s; induction events as [|e l IH]; intros s I Hp.
  - split; [apply same_requests_refl | reflexivity].
  - rewrite run_cons.
    destruct (streaming_response_step s e Hp) as [Hr Hp'].
    destruct (IH _ (Inv_step s e I) Hp') as [H1 H2].
    split.
    + apply (same_requests_trans s (step s e) _ (past_body_step s e I Hp) H1).
    + unfold same_control_response in *. congruence.
Qed.

(** In the two waiting phases there is neither a response nor a stream;
    afterwards the phase is [Streaming] or [Finished]. *)
Lemma responded_phase (s : State) :
  Inv s -> response s <> None ->
  phase s = Streaming \/ phase s = Finished.
Proof.
  intros I Hr. destruct (phase s) eqn:Hp; auto.
  - destruct (inv_await s I (or_introl Hp)) as (_ & _ & H & _). congruence.
  - destruct (inv_await s I (or_intror Hp)) as (_ & _ & H & _). congruence.
Qed.

End RouteFacts.

(** X1. The handler answers once: a response that has been returned is
    the response of the request whatever happens afterwards. *)
Theorem response_is_final (apiKey : option jsstring)
    (before later : list Event) (r : Response) :
  response (run (POST apiKey) before) = Some r ->
  response (run (POST apiKey) (before ++ later)) = Some r.
Proof.
  intros Hr. pose proof (Inv_run apiKey before) as I.
  rewrite run_app. set (s := run (POST apiKey) before) in *.
  assert (Hp : phase s = Streaming \/ phase s = Finished).
  { apply responded_phase; [exact I | congruence]. }
  rewrite (proj1 (streaming_response_run later s Hp)). exact Hr.
Qed.

Lemma response_is_final_witness :
  response (run (POST key) [BodySettled (Resolved (BodyValue (IsArray [])))])
    <> None /\
  option_map status
    (response (run (POST key)
                 ([BodySettled (Resolved (BodyValue (IsArray [])))]
                  ++ [BodySettled (Resolved (BodyValue hello));
                      CreateSettled (Resolved tt)])))
  = Some 400.
Proof.
  split; [discriminate|].
  rewrite (response_is_final key
             [BodySettled (Resolved (BodyValue (IsArray [])))]
             [BodySettled (Resolved (BodyValue hello));
              CreateSettled (Resolved tt)]
             _ eq_refl).
  reflexivity.
Defined.

(** X2. No exit path leaves the deadline timer armed: whenever the
    handler has returned a response, of any kind, the timer is cleared or
    was never set, and a deadline that elapses then changes nothing. *)
Theorem timer_released_with_response (apiKey : option jsstring)
    (events : list Event) :
  let s := run (POST apiKey) events in
  response s <> None ->
  pending (timer s) = false /\ step s DeadlineElapsed = s.
Proof.
  cbv zeta. intros Hr. pose proof (Inv_run apiKey events) as I.
  set (s := run (POST apiKey) events) in *.
  assert (Hp : pending (timer s) = false).
  { destruct (pending (timer s)) eqn:Hp; [|reflexivity].
    destruct (inv_pending s I Hp) as [_ Hph].
    destruct (inv_await s I Hph) as (_ & _ & H & _). congruence. }
  split; [exact Hp|]. unfold step. rewrite Hp. reflexivity.
Qed.

Lemma timer_released_with_response_witness :
  let s := run (POST key) (requested ++ [CreateSettled (Rejected upstream_429)]) in
  response s <> None /\ pending (timer s) = false.
Proof.
  split; [discriminate|].
  apply (timer_released_with_response key
           (requested ++ [CreateSettled (Rejected upstream_429)])).
  discriminate.
Defined.

Lemma respond_quiet (text : jsstring) (code : N) (s : State) :
  let s' := respond text code (clearTimeout_if_set s) in
  upstream_requests s' = upstream_requests s /\
  stream s' = stream s /\
  response s' = Some (text_response text code) /\
  phase s' = Finished.
Proof.
  unfold respond, clearTimeout_if_set.
  destruct (timeoutId (timer s)); repeat split.
Qed.

(** Every branch of the outer [catch] ends the handler and leaves the
    requests and the stream as they were; it answers with a text, or, when
    the response cannot be built, not at all. *)
Lemma outer_catch_quiet (error : Thrown) (s : State) :
  let s' := outer_catch error s in
  upstream_requests s' = upstream_requests s /\
  stream s' = stream s /\
  phase s' = Finished /\
  (response s' = response s \/
   exists text code, response s' = Some (text_response text code)).
Proof.
  assert (Hresp : forall text code,
    let s' := respond text code (clearTimeout_if_set s) in
    upstream_requests s' = upstream_requests s /\
    stream s' = stream s /\
    phase s' = Finished /\
    (response s' = response s \/
     exists t c, response s' = Some (text_response t c))).
  { intros text code.
    destruct (respond_quiet text code s) as (H1 & H2 & H3 & H4).
    cbv zeta. repeat split; eauto. }
  cbv zeta. unfold outer_catch.
  destruct (is_abort_error error); [apply Hresp|].
  destruct (err_class error); try apply Hresp.
  unfold respond_or_reject, reject, clearTimeout_if_set.
  destruct (new_NextResponse _ _) as [r|e] eqn:E.
  - unfold new_NextResponse in E. cbv zeta in E.
    destruct (_ || _); [discriminate|].
    destruct (null_body_status _); [discriminate|].
    injection E as <-.
    destruct (timeoutId (timer s)); repeat split;
      right; eexists; eexists; reflexivity.
  - destruct (timeoutId (timer s)); repeat split; auto.
Qed.

(** An event that brings no messages leaves a handler that has issued
    no request without request and without stream. *)
Lemma quiet_step (s : State) (e : Event) :
  carries_messages e = false ->
  upstream_requests s = [] -> stream s = None ->
  response s <> Some stream_response ->
  phase s = AwaitingBody \/ phase s = Finished ->
  upstream_requests (step s e) = [] /\ stream (step s e) = None /\
  response (step s e) <> Some stream_response /\
  (phase (step s e) = AwaitingBody \/ phase (step s e) = Finished).
Proof.
  intros He Hu Hs Hr Hp.
  assert (Hsame : upstream_requests s = [] /\ stream s = None /\
                  response s <> Some stream_response /\
                  (phase s = AwaitingBody \/ phase s = Finished)) by auto.
  assert (Hresp : forall text code,
    let s' := respond text code (clearTimeout_if_set s) in
    upstream_requests s' = [] /\ stream s' = None /\
    response s' <> Some stream_response /\
    (phase s' = AwaitingBody \/ phase s' = Finished)).
  { intros text code.
    destruct (respond_quiet text code s) as (H1 & H2 & H3 & H4).
    cbv zeta. rewrite H1, H2, H3, H4. repeat split; auto. discriminate. }
  assert (Hcatch : forall err,
    upstream_requests (outer_catch err s) = [] /\
    stream (outer_catch err s) = None /\
    response (outer_catch err s) <> Some stream_response /\
    (phase (outer_catch err s) = AwaitingBody \/
     phase (outer_catch err s) = Finished)).
  { intros err.
    destruct (outer_catch_quiet err s) as (H1 & H2 & H3 & H4).
    cbv zeta in *. rewrite H1, H2, H3. repeat split; auto.
    destruct H4 as [H4 | (text & code & H4)]; rewrite H4;
      [exact Hr | discriminate]. }
  destruct e as [| r | r | n | |]; unfold step.
  - destruct (pending (timer s)); [|exact Hsame].
    unfold on_timeout; simpl. auto.
  - destruct Hp as [Hp|Hp]; rewrite Hp; [|exact Hsame].
    unfold after_body. destruct r as [b|err]; [|apply Hcatch].
    destruct b as [|f]; [apply Hcatch|]. simpl destructure. cbv iota.
    destruct (invalid_messages f) eqn:Hinv; [apply Hresp|].
    destruct f as [v|[|m ms]]; try discriminate He.
    + unfold invalid_messages in Hinv. simpl in Hinv.
      rewrite orb_true_r in Hinv. discriminate.
    + discriminate Hinv.
  - destruct Hp as [Hp|Hp]; rewrite Hp; exact Hsame.
  - destruct Hp as [Hp|Hp]; rewrite Hp; exact Hsame.
  - rewrite Hs. exact Hsame.
  - rewrite Hs. exact Hsame.
Qed.

(** X3. The upstream is contacted only for a non-empty [messages] array:
    as long as no body with one has arrived, no completion request has
    been issued and nothing is streamed. *)
Theorem no_request_without_messages (apiKey : option jsstring)
    (events : list Event) :
  existsb carries_messages events = false ->
  let s := run (POST apiKey) events in
  upstream_requests s = [] /\ stream s = None /\
  response s <> Some stream_response.
Proof.
  intros Hnone. cbv zeta.
  assert (G : forall l s,
    existsb carries_messages l = false ->
    upstream_requests s = [] -> stream s = None ->
    response s <> Some stream_response ->
    phase s = AwaitingBody \/ phase s = Finished ->
    upstream_requests (run s l) = [] /\ stream (run s l) = None /\
    response (run s l) <> Some stream_response).
  { induction l as [|e l IH]; intros s Hl Hu Hs Hr Hp; [auto|].
    simpl in Hl. apply orb_false_iff in Hl as [He Hl].
    rewrite run_cons.
    destruct (quiet_step s e He Hu Hs Hr Hp) as (H1 & H2 & H3 & H4).
    apply IH; assumption. }
  unfold POST. destruct (negb (truthy_opt apiKey)); apply G; simpl; auto;
    discriminate.
Qed.

Lemma no_request_without_messages_witness :
  let s := run (POST key)
             [DeadlineElapsed;
              BodySettled (Resolved (BodyValue (NotArray (JString (lit "hi")))));
              CreateSettled (Resolved tt)] in
  upstream_requests s = [] /\ stream s = None.
Proof.
  destruct (no_request_without_messages key
              [DeadlineElapsed;
               BodySettled (Resolved (BodyValue (NotArray (JString (lit "hi")))));
               CreateSettled (Resolved tt)] eq_refl) as (H1 & H2 & _).
  split; assumption.
Defined.

Section RequestFacts.

Lemma after_create_requests (r : Settled unit) (s : State) :
  upstream_requests (after_create r s) = upstream_requests s /\
  phase (after_create r s) <> AwaitingBody.
Proof.
  unfold after_create. destruct r as [u|err].
  - unfold clearTimeout_if_set. destruct (timeoutId (timer s));
      split; try reflexivity; discriminate.
  - destruct (outer_catch_quiet err s) as (H1 & _ & H3 & _).
    cbv zeta in *. rewrite H1, H3. split; [reflexivity | discriminate].
Qed.

(** Past the body no event adds a request. *)
Lemma no_retry_step (s : State) (e : Event) :
  Inv s -> phase s <> AwaitingBody ->
  upstream_requests (step s e) = upstream_requests s /\
  phase (step s e) <> AwaitingBody.
Proof.
  intros I Hp. destruct (phase s) eqn:Hph; [congruence| | |].
  - (* waiting for [create] *)
    destruct (inv_await s I (or_intror Hph)) as (_ & Hst & _).
    destruct e as [| r | r | n | |]; unfold step; rewrite ?Hph, ?Hst;
      try (split; [reflexivity | congruence]).
    + destruct (pending (timer s)); simpl; rewrite ?Hph;
        split; try reflexivity; congruence.
    + apply after_create_requests.
  - destruct (past_body_step s e I (or_introl Hph)) as (H & _).
    destruct (streaming_response_step s e (or_introl Hph)) as [_ [H'|H']];
      split; auto; congruence.
  - destruct (past_body_step s e I (or_intror Hph)) as (H & _).
    destruct (streaming_response_step s e (or_intror Hph)) as [_ [H'|H']];
      split; auto; congruence.
Qed.

Lemma no_retry_run (events : list Event) (s : State) :
  Inv s -> phase s <> AwaitingBody ->
  upstream_requests (run s events) = upstream_requests s.
Proof.
  revert s; induction events as [|e l IH]; intros s I Hp; [reflexivity|].
  rewrite run_cons. destruct (no_retry_step s e I Hp) as [H1 H2].
  rewrite IH; [exact H1 | apply Inv_step; exact I | exact H2].
Qed.

Lemma valid_body_step (s : State) (ms : list ClientMessage) :
  phase s = AwaitingBody -> ms <> [] ->
  step s (BodySettled (Resolved (BodyValue (IsArray ms)))) =
  set_phase AwaitingUpstream
    (set_upstream_requests (upstream_requests s ++ [completion_request ms]) s).
Proof.
  intros Hph Hms. unfold step. rewrite Hph. unfold after_body.
  simpl destructure. cbv iota.
  destruct ms as [|m ms]; [congruence|]. reflexivity.
Qed.

End RequestFacts.

(** X4. A body with a non-empty [messages] array leads to exactly one
    completion request, for the model
    "deepseek-ai/DeepSeek-R1-Distill-Llama-70B-free", with [stream: true]
    and the normalised messages; whatever happens afterwards (a failure of
    the upstream, the deadline, a cancellation) no second request is
    issued. *)
Theorem one_request_no_retry (apiKey : option jsstring)
    (before : list Event) (ms : list ClientMessage) (later : list Event) :
  phase (run (POST apiKey) before) = AwaitingBody ->
  ms <> [] ->
  upstream_requests
    (run (POST apiKey)
       (before ++ BodySettled (Resolved (BodyValue (IsArray ms))) :: later))
  = [completion_request ms].
Proof.
  intros Hph Hms. pose proof (Inv_run apiKey before) as I.
  rewrite run_app, run_cons.
  set (s0 := run (POST apiKey) before) in *.
  pose proof (Inv_step s0 (BodySettled (Resolved (BodyValue (IsArray ms)))) I)
    as I1.
  rewrite (valid_body_step s0 ms Hph Hms) in *.
  rewrite no_retry_run; [|exact I1|discriminate].
  simpl. rewrite (inv_body s0 I Hph). reflexivity.
Qed.

Lemma one_request_no_retry_witness :
  phase (run (POST key) received) = AwaitingBody /\
  map stream_flag
    (upstream_requests
       (run (POST key)
          (received ++
           BodySettled (Resolved (BodyValue (IsArray [empty_turn; empty_turn])))
           :: [CreateSettled (Rejected upstream_429);
               BodySettled (Resolved (BodyValue hello))])))
  = [true].
Proof.
  split; [reflexivity|].
  rewrite (one_request_no_retry key received [empty_turn; empty_turn]
             [CreateSettled (Rejected upstream_429);
              BodySettled (Resolved (BodyValue hello))]
             eq_refl ltac:(discriminate)).
  reflexivity.
Defined.

(** X5. A body that cannot be read (for instance malformed JSON, for
    which [request.json()] rejects with a [SyntaxError]) is answered with
    HTTP 500: the text is "Error processing request: " followed by the
    error's message, or by "Unknown server error" when what was thrown is
    not an [Error]; no upstream request is issued. *)
Theorem unreadable_body_is_500 (apiKey : option jsstring)
    (before : list Event) (error : Thrown) (later : list Event) :
  phase (run (POST apiKey) before) = AwaitingBody ->
  is_abort_error error = false ->
  (forall st, err_class error <> APIError st) ->
  let s := run (POST apiKey) (before ++ BodySettled (Rejected error) :: later) in
  response s =
    Some (text_response
            (lit "Error processing request: " ++
             (if instanceof_Error error then err_message error
              else lit "Unknown server error"))
            500) /\
  upstream_requests s = [] /\
  pending (timer s) = false.
Proof.
  intros Hph Hab Hcls. cbv zeta.
  pose proof (Inv_run apiKey before) as I.
  rewrite run_app, run_cons.
  set (s0 := run (POST apiKey) before) in *.
  destruct (inv_await s0 I (or_introl Hph)) as (Htid & Hst & _).
  simpl step. rewrite Hph. unfold after_body.
  rewrite outer_catch_settled by assumption.
  unfold outer_catch, clearTimeout_if_set, instanceof_Error.
  rewrite Hab, Htid.
  destruct (err_class error) as [| |st] eqn:Hc.
  - repeat split. apply (inv_body s0 I Hph).
  - repeat split. apply (inv_body s0 I Hph).
  - destruct (Hcls st). reflexivity.
Qed.

Lemma unreadable_body_is_500_witness :
  let s := run (POST key) (received ++ BodySettled (Rejected syntax_error) :: []) in
  phase (run (POST key) received) = AwaitingBody /\
  response s =
    Some (text_response
            (lit "Error processing request: Unexpected end of JSON input") 500).
Proof.
  split; [reflexivity|].
  destruct (unreadable_body_is_500 key received syntax_error []
              eq_refl eq_refl ltac:(discriminate)) as (H & _).
  exact H.
Defined.

Section ResponseKinds.

Lemma stream_matches_response_step (s : State) (e : Event) :
  Inv s -> stream_matches_response s -> stream_matches_response (step s e).
Proof.
  intros I J.
  assert (Hresp : forall text code,
            stream s = None ->
            stream_matches_response (respond text code (clearTimeout_if_set s))).
  { intros text code Hs. unfold stream_matches_response.
    destruct (respond_quiet text code s) as (_ & H2 & H3 & _).
    cbv zeta in *. rewrite H2, Hs, H3. right. eauto. }
  assert (Hcatch : forall err, stream s = None ->
            stream_matches_response (outer_catch err s)).
  { intros err Hs. unfold stream_matches_response in *.
    destruct (outer_catch_quiet err s) as (_ & H2 & _ & H4).
    cbv zeta in *. rewrite H2, Hs in *.
    destruct H4 as [H4 | H4]; [rewrite H4; exact J | right; exact H4]. }
  destruct (phase s) eqn:Hph.
  - destruct (inv_await s I (or_introl Hph)) as (_ & Hst & Hr & _).
    destruct e as [| r | r | n | |]; unfold step; rewrite ?Hph, ?Hst;
      try exact J.
    + destruct (pending (timer s)); [|exact J].
      unfold stream_matches_response, on_timeout in *; simpl. exact J.
    + unfold after_body. destruct r as [b|err]; [|auto].
      destruct (destructure b) as [f|err]; [|auto].
      destruct (invalid_messages f); [auto|].
      unfold stream_matches_response in *; simpl. exact J.
  - destruct (inv_await s I (or_intror Hph)) as (_ & Hst & Hr & _).
    destruct e as [| r | r | n | |]; unfold step; rewrite ?Hph, ?Hst;
      try exact J.
    + destruct (pending (timer s)); [|exact J].
      unfold stream_matches_response, on_timeout in *; simpl. exact J.
    + unfold after_create. destruct r as [u|err]; [|auto].
      unfold stream_matches_response; simpl. reflexivity.
  - destruct (streaming_response_step s e (or_introl Hph)) as [Hr _].
    destruct (past_body_step s e I (or_introl Hph)) as (_ & _ & Hn).
    unfold stream_matches_response in *. rewrite Hr.
    destruct (stream s) eqn:Hs, (stream (step s e)) eqn:Hs'; auto.
    + destruct Hn as [Hn _]. discriminate (Hn eq_refl).
    + destruct Hn as [_ Hn]. discriminate (Hn eq_refl).
  - destruct (streaming_response_step s e (or_intror Hph)) as [Hr _].
    destruct (past_body_step s e I (or_intror Hph)) as (_ & _ & Hn).
    unfold stream_matches_response in *. rewrite Hr.
    destruct (stream s) eqn:Hs, (stream (step s e)) eqn:Hs'; auto.
    + destruct Hn as [Hn _]. discriminate (Hn eq_refl).
    + destruct Hn as [_ Hn]. discriminate (Hn eq_refl).
Qed.

Lemma stream_matches_response_run (apiKey : option jsstring)
    (events : list Event) :
  stream_matches_response (run (POST apiKey) events).
Proof.
  assert (G : forall l s, Inv s -> stream_matches_response s ->
                          stream_matches_response (run s l)).
  { induction l as [|e l IH]; intros s I J; [exact J|].
    rewrite run_cons. apply IH; [apply Inv_step; exact I|].
    apply stream_matches_response_step; assumption. }
  apply G; [apply Inv_POST|].
  unfold POST, stream_matches_response.
  destruct (negb (truthy_opt apiKey)); simpl; eauto.
Qed.

End ResponseKinds.

(** X6. Bytes are streamed only under the 200 response: in every
    execution, if a stream exists or a chunk has been enqueued, the
    response is the stream response (status 200, the three headers); and
    every other response (400, 500, 504 or an upstream status) has a text
    body and no stream behind it, so no partial output precedes an error
    response. *)
Theorem bytes_only_under_200 (apiKey : option jsstring)
    (events : list Event) :
  let s := run (POST apiKey) events in
  (stream s <> None -> response s = Some stream_response) /\
  (enqueued s <> [] -> response s = Some stream_response) /\
  (forall r, response s = Some r -> r <> stream_response ->
     stream s = None /\ enqueued s = [] /\ body r <> None).
Proof.
  cbv zeta. pose proof (stream_matches_response_run apiKey events) as J.
  set (s := run (POST apiKey) events) in *.
  unfold stream_matches_response, enqueued in *.
  destruct (stream s) as [st|].
  - repeat split; auto; congruence.
  - split; [congruence|]. split; [congruence|].
    intros r Hr Hne. repeat split; auto.
    destruct J as [J | (text & code & J)]; [congruence|].
    rewrite Hr in J. injection J as ->. discriminate.
Qed.

Lemma bytes_only_under_200_witness :
  let s := run (POST key) streaming_hi in
  enqueued s <> [] /\ response s = Some stream_response.
Proof.
  split; [discriminate|].
  destruct (bytes_only_under_200 key streaming_hi) as (_ & H & _).
  apply H. discriminate.
Defined.

(** *** How the stream ends *)

Section EndFacts.

(** In a streaming state that can be written to, nothing has terminated
    the stream yet. *)
Lemma writable_open (s : State) :
  Inv s -> writable s ->
  streamClosed s = false /\ terminations s = [].
Proof.
  intros I (Hph & _).
  destruct (inv_streaming s I Hph) as (Hsc & _).
  split; [exact Hsc | apply (inv_open s I Hsc)].
Qed.

Lemma readable_of_writable (st : Stream.t) :
  Stream.canCloseOrEnqueue st = true ->
  Stream.is_readable st = true /\ Stream.closeRequested st = false.
Proof.
  unfold Stream.canCloseOrEnqueue. intros H.
  apply andb_true_iff in H as [H1 H2].
  apply negb_true_iff in H2. auto.
Qed.

(** A deadline that elapses while the handler waits aborts the signal. *)
Lemma deadline_effect (s : State) :
  Inv s -> phase s = AwaitingBody \/ phase s = AwaitingUpstream ->
  signal_aborted (step s DeadlineElapsed) = true /\
  phase (step s DeadlineElapsed) = phase s.
Proof.
  intros I Hph. unfold step, signal_aborted.
  destruct (pending (timer s)) eqn:Hp.
  - split; reflexivity.
  - destruct (inv_await s I Hph) as (_ & _ & _ & [H | [H _]]);
      [congruence | auto].
Qed.

End EndFacts.

(** X7. When the upstream iterator fails while the relay is streaming,
    with an error that is not an "AbortError", the error is passed to the
    caller-facing stream: the stream is errored with that very error, the
    chunks still queued are discarded, the one termination event is the
    error (the [close] of [finally] is refused), and the 200 response that
    was already returned stays. *)
Theorem upstream_failure_errors_stream (apiKey : option jsstring)
    (before : list Event) (error : Thrown) :
  let s := run (POST apiKey) before in
  writable s ->
  str_eqb (err_name error) (lit "AbortError") = false ->
  let s' := step s (UpstreamNext (Raise error)) in
  phase s' = Finished /\
  terminations s' = [Stream.ErrorAccepted error] /\
  option_map Stream.state (stream s') = Some Stream.Errored /\
  option_map Stream.queue (stream s') = Some [] /\
  enqueued s' = enqueued s /\
  response s' = Some stream_response.
Proof.
  cbv zeta. intros W Hname.
  pose proof (Inv_run apiKey before) as I.
  pose proof (stream_matches_response_run apiKey before) as J.
  set (s := run (POST apiKey) before) in *.
  destruct (writable_open s I W) as [Hsc Ht].
  destruct W as (Hph & st & Hst & Hc).
  destruct (readable_of_writable st Hc) as [Hr Hcr].
  unfold stream_matches_response in J. rewrite Hst in J.
  unfold terminations in Ht. rewrite Hst in Ht.
  unfold step. rewrite Hph. unfold after_next, inner_catch.
  rewrite Hname, Hst. unfold Stream.error. rewrite Hr.
  unfold finally_close, closeStream. simpl streamClosed. rewrite Hsc.
  simpl negb. cbv iota. simpl stream. cbv iota.
  unfold Stream.close, Stream.canCloseOrEnqueue, Stream.is_readable.
  simpl. unfold terminations, enqueued, Stream.terminations, Stream.enqueued.
  simpl. rewrite Hst. rewrite filter_app, enqueued_of_app. simpl.
  unfold Stream.terminations in Ht. rewrite Ht, app_nil_r.
  repeat split. exact J.
Qed.

Lemma upstream_failure_errors_stream_witness :
  let s := run (POST key) streaming_hi in
  writable s /\
  terminations (step s (UpstreamNext (Raise upstream_429)))
    = [Stream.ErrorAccepted upstream_429] /\
  option_map status (response (step s (UpstreamNext (Raise upstream_429))))
    = Some 200.
Proof.
  assert (W : writable (run (POST key) streaming_hi)).
  { split; [reflexivity|]. eexists. split; reflexivity. }
  destruct (upstream_failure_errors_stream key streaming_hi upstream_429
              W eq_refl) as (_ & H2 & _ & _ & _ & H6).
  split; [exact W|]. split; [exact H2|].
  cbv zeta. rewrite H6. reflexivity.
Defined.

(** X8. An upstream that fails with an "AbortError" while the relay is
    streaming is handled exactly as an upstream that has ended: the state
    after it is the state after the normal end, so the stream is closed
    gracefully (one [close], no error) and the caller cannot tell a
    truncated answer from a complete one. *)
Theorem upstream_abort_ends_like_done (apiKey : option jsstring)
    (before : list Event) (error : Thrown) :
  let s := run (POST apiKey) before in
  writable s ->
  str_eqb (err_name error) (lit "AbortError") = true ->
  step s (UpstreamNext (Raise error)) = step s (UpstreamNext Done) /\
  terminations (step s (UpstreamNext (Raise error))) = [Stream.CloseAccepted] /\
  enqueued (step s (UpstreamNext (Raise error))) = enqueued s /\
  option_map Stream.queue (stream (step s (UpstreamNext (Raise error))))
    = option_map Stream.queue (stream s).
Proof.
  cbv zeta. intros W Hname.
  pose proof (Inv_run apiKey before) as I.
  set (s := run (POST apiKey) before) in *.
  destruct (writable_open s I W) as [Hsc Ht].
  destruct W as (Hph & st & Hst & Hc).
  assert (E : step s (UpstreamNext (Raise error)) = step s (UpstreamNext Done)).
  { unfold step. rewrite Hph. unfold after_next, inner_catch.
    rewrite Hname. reflexivity. }
  rewrite E. split; [reflexivity|].
  unfold step. rewrite Hph. unfold after_next, finally_close.
  destruct (closeStream_open s st Hsc Hst)
    as [(_ & st' & Hcl & -> & Ht') | (Hc' & _)]; [|congruence].
  unfold terminations, enqueued in *. simpl. rewrite Hst in *.
  rewrite Ht', Ht, (close_enqueued st st' Hcl).
  repeat split.
  unfold Stream.close in Hcl. rewrite Hc in Hcl. injection Hcl as <-.
  reflexivity.
Qed.

Lemma upstream_abort_ends_like_done_witness :
  let s := run (POST key) streaming_hi in
  writable s /\
  terminations (step s (UpstreamNext (Raise abort_error)))
    = [Stream.CloseAccepted].
Proof.
  assert (W : writable (run (POST key) streaming_hi)).
  { split; [reflexivity|]. eexists. split; reflexivity. }
  destruct (upstream_abort_ends_like_done key streaming_hi abort_error
              W eq_refl) as (_ & H & _).
  split; [exact W | exact H].
Defined.

(** X9. After the consumer has cancelled a stream the relay was writing
    to, the loop of [start] is still waiting for the upstream.  A chunk
    without content and without finish reason leaves it waiting; the first
    chunk with a non-empty delta ends it, because [enqueue] throws on the
    cancelled stream: nothing is written, and neither [error] nor [close]
    is accepted, so the stream sees no termination event of the relay. *)
Theorem chunk_after_cancel_ends_loop (apiKey : option jsstring)
    (before : list Event) (chunk : ChatCompletionChunk) :
  let s := run (POST apiKey) before in
  writable s ->
  let s1 := step s ConsumerCancel in
  let s2 := step s1 (UpstreamNext (Yield chunk)) in
  phase s1 = Streaming /\
  (emitted chunk = [] -> has_finish_reason chunk = false -> s2 = s1) /\
  (emitted chunk <> [] ->
   phase s2 = Finished /\ streamClosed s2 = true /\
   enqueued s2 = enqueued s /\ terminations s2 = []).
Proof.
  cbv zeta. intros W.
  pose proof (Inv_run apiKey before) as I.
  set (s := run (POST apiKey) before) in *.
  destruct (writable_open s I W) as [Hsc Ht].
  destruct W as (Hph & st & Hst & Hc).
  destruct (readable_of_writable st Hc) as [Hr Hcr].
  assert (Ec : Stream.cancel st =
               Some {| Stream.state := Stream.Closed;
                       Stream.closeRequested := Stream.closeRequested st;
                       Stream.queue := [];
                       Stream.log := Stream.log st ++ [Stream.Cancelled] |}).
  { unfold Stream.cancel. rewrite Hr. reflexivity. }
  set (st' := {| Stream.state := Stream.Closed;
                 Stream.closeRequested := Stream.closeRequested st;
                 Stream.queue := [];
                 Stream.log := Stream.log st ++ [Stream.Cancelled] |}) in *.
  destruct (cancel_some st st' Ec) as (_ & _ & _ & Ht' & He').
  set (s1 := step s ConsumerCancel).
  assert (H1 : phase s1 = Streaming /\ stream s1 = Some st' /\
               streamClosed s1 = false).
  { unfold s1, step. rewrite Hst, Ec. unfold cancel_callback.
    destruct (negb (aborted (abortController (set_stream st' s))));
      simpl; auto. }
  destruct H1 as (Hph1 & Hst1 & Hsc1).
  split; [exact Hph1|].
  assert (Hc1 : Stream.canCloseOrEnqueue st' = false) by reflexivity.
  split.
  - intros Hem Hfin. unfold step. rewrite Hph1. unfold after_next, loop_chunk.
    unfold emitted in Hem. rewrite Hst1, Hfin.
    destruct (contentDelta chunk) as [d|]; [|reflexivity].
    destruct (truthy d); [discriminate Hem | reflexivity].
  - intros Hem. unfold step. rewrite Hph1. unfold after_next, loop_chunk.
    unfold emitted in Hem. rewrite Hst1.
    destruct (contentDelta chunk) as [d|]; [|congruence].
    destruct (truthy d); [|congruence].
    rewrite (enqueue_unwritable _ _ Hc1).
    unfold inner_catch. rewrite controller_TypeError_not_abort, Hst1.
    unfold finally_close, closeStream, Stream.error.
    simpl. rewrite Hsc1. simpl. unfold terminations, enqueued. simpl.
    unfold enqueued in He'. rewrite Hst.
    unfold terminations in Ht. rewrite Hst in Ht.
    repeat split; [exact He' | rewrite Ht'; exact Ht].
Qed.

Lemma chunk_after_cancel_ends_loop_witness :
  let s := run (POST key) streaming_hi in
  let s2 := step (step s ConsumerCancel)
              (UpstreamNext (Yield (text_chunk " there"))) in
  writable s /\ phase s2 = Finished /\ terminations s2 = [] /\
  enqueued s2 = [encode (lit "Hi")].
Proof.
  assert (W : writable (run (POST key) streaming_hi)).
  { split; [reflexivity|]. eexists. split; reflexivity. }
  destruct (chunk_after_cancel_ends_loop key streaming_hi
              (text_chunk " there") W) as (_ & _ & H).
  destruct (H ltac:(discriminate)) as (H1 & _ & H3 & H4).
  split; [exact W|]. split; [exact H1|]. split; [exact H4|].
  cbv zeta. rewrite H3. reflexivity.
Defined.

(** X10. The handler does not look at the abort signal before it calls
    the upstream: when the deadline elapses while the body is still being
    read and the body then arrives with a non-empty [messages] array, the
    completion request is issued all the same, with a signal that is
    already aborted. *)
Theorem deadline_before_body_still_requests (apiKey : option jsstring)
    (before : list Event) (ms : list ClientMessage) :
  let s := run (POST apiKey) before in
  phase s = AwaitingBody ->
  ms <> [] ->
  let s' := run s [DeadlineElapsed;
                   BodySettled (Resolved (BodyValue (IsArray ms)))] in
  phase s' = AwaitingUpstream /\
  signal_aborted s' = true /\
  upstream_requests s' = [completion_request ms] /\
  response s' = None.
Proof.
  cbv zeta. intros Hph Hms.
  pose proof (Inv_run apiKey before) as I.
  set (s := run (POST apiKey) before) in *.
  rewrite !run_cons.
  destruct (deadline_effect s I (or_introl Hph)) as (Ha & Hp1).
  pose proof (Inv_step s DeadlineElapsed I) as I1.
  set (s1 := step s DeadlineElapsed) in *.
  assert (Hph1 : phase s1 = AwaitingBody) by congruence.
  rewrite (valid_body_step s1 ms Hph1 Hms).
  destruct (inv_await s1 I1 (or_introl Hph1)) as (_ & _ & Hr & _).
  simpl. rewrite (inv_body s1 I1 Hph1).
  repeat split; assumption.
Qed.

Lemma deadline_before_body_still_requests_witness :
  let s' := run (run (POST key) received)
              [DeadlineElapsed;
               BodySettled (Resolved (BodyValue hello))] in
  phase (run (POST key) received) = AwaitingBody /\
  phase s' = AwaitingUpstream /\ signal_aborted s' = true.
Proof.
  destruct (deadline_before_body_still_requests key received
              [{| role := user; content := lit "Hello"; data := None |}]
              eq_refl ltac:(discriminate)) as (H1 & H2 & _).
  split; [reflexivity|]. split; [exact H1 | exact H2].
Defined.

(* ===================================================================== *)
(** ** Further properties of the normaliser *)
(* ===================================================================== *)

Section TrimFacts.

Lemma trimStart_has_text (s : jsstring) :
  truthy (trimStart s) = has_text s.
Proof.
  induction s as [|c t IH]; simpl; [reflexivity|].
  destruct (is_ws c); simpl; [exact IH | reflexivity].
Qed.

Lemma trimStart_cases (s : jsstring) :
  trimStart s = [] \/
  exists c t, trimStart s = c :: t /\ is_ws c = false.
Proof.
  induction s as [|c t IH]; simpl; [auto|].
  destruct (is_ws c) eqn:Hc; [exact IH | right; eauto].
Qed.

(** A trimmed string is empty or starts with a character that is not
    white space. *)
Lemma trim_cases (s : jsstring) :
  (trim s = [] /\ has_text s = false) \/
  exists c t, trim s = c :: t /\ is_ws c = false /\ has_text s = true.
Proof.
  unfold trim. pose proof (trimStart_has_text s) as Ht.
  destruct (trimStart_cases s) as [E | (c & t & E & Hc)]; rewrite E in *.
  - left. split; [reflexivity | simpl in Ht; congruence].
  - right. unfold trimEnd. simpl rev.
    destruct (trimStart_suffix (rev t) c [] Hc) as [a' Ea].
    rewrite Ea, rev_app_distr. simpl.
    exists c, (rev a'). repeat split; [exact Hc | simpl in Ht; congruence].
Qed.

(** [s.trim()] is non-empty exactly when [s] has a character that is not
    white space. *)
Lemma trim_truthy (s : jsstring) : truthy (trim s) = has_text s.
Proof.
  destruct (trim_cases s) as [[E H] | (c & t & E & _ & H)];
    rewrite E, H; reflexivity.
Qed.

Lemma or_else_nil (s : jsstring) : or_else s [] = s.
Proof. destruct s; reflexivity. Qed.

End TrimFacts.

(** X11. The content synthesised for a user message with a named
    attachment, whatever the message's text: when the text has a character
    that is not white space, it is the trimmed text, one space, and the
    acknowledgement line; otherwise it is the acknowledgement line alone.
    In both cases it has no white space at either end. *)
Theorem attachment_content (m : ClientMessage) (d : FileData)
    (fn : jsstring) :
  role m = user -> data m = Some d ->
  truthy_opt (fileDataUrl d) = true ->
  fileName d = Some fn -> truthy fn = true ->
  sdk_content (currentSdkMessage m) =
    (if has_text (content m)
     then trim (content m) ++ lit " " ++ acknowledgement_line fn
     else acknowledgement_line fn) /\
  trim (sdk_content (currentSdkMessage m)) = sdk_content (currentSdkMessage m).
Proof.
  intros Hrole Hdata Hurl Hfn Hfn'.
  destruct (attachment_branch_names_file m d fn Hrole Hdata Hurl Hfn Hfn')
    as [E _].
  rewrite E. unfold combinedText.
  rewrite Hfn, trim_fileAcknowledgement, or_else_nil.
  rewrite acknowledgement_line_shape.
  set (mid := lit "User has attached an image: " ++ [34] ++ fn ++ [34]
                ++ lit ". Please acknowledge this attachment.").
  destruct (trim_cases (content m)) as [[Et Hh] | (c & t & Et & Hc & Hh)];
    rewrite Et, Hh.
  - change ([] ++ lit " " ++ 91 :: mid ++ [93]) with (32 :: 91 :: mid ++ [93]).
    assert (E1 : trim (32 :: 91 :: mid ++ [93]) = 91 :: mid ++ [93]).
    { unfold trim.
      change (trimStart (32 :: 91 :: mid ++ [93]))
        with (trimStart (91 :: mid ++ [93])).
      apply trim_block; reflexivity. }
    rewrite E1. split; [reflexivity|]. apply trim_block; reflexivity.
  - assert (E2 : (c :: t) ++ lit " " ++ 91 :: mid ++ [93] =
                 c :: (t ++ lit " " ++ 91 :: mid) ++ [93]).
    { rewrite <- app_comm_cons. f_equal.
      rewrite <- app_assoc. reflexivity. }
    rewrite E2.
    match goal with
    | |- trim ?X = ?X /\ _ =>
        assert (E3 : trim X = X) by (apply trim_block; [exact Hc | reflexivity]);
        rewrite !E3; split; reflexivity
    end.
Qed.

Lemma attachment_content_witness :
  sdk_content
    (currentSdkMessage
       {| role := user; content := lit "  What is this?  ";
          data := Some cat_png |})
  = lit "What is this? " ++ acknowledgement_line (lit "cat.png").
Proof.
  destruct (attachment_content
              {| role := user; content := lit "  What is this?  ";
                 data := Some cat_png |}
              cat_png (lit "cat.png")
              eq_refl eq_refl eq_refl eq_refl eq_refl) as [H _].
  rewrite H. reflexivity.
Defined.

Section RedactFacts.

Lemma redact_kept (m : ClientMessage) : kept (redact m) = kept m.
Proof.
  unfold kept, has_content, has_attachment, data_fileDataUrl, redact.
  simpl. destruct (data m) as [d|]; simpl; [|reflexivity].
  destruct (truthy_opt (fileDataUrl d)); reflexivity.
Qed.

Lemma redact_currentSdkMessage (m : ClientMessage) :
  currentSdkMessage (redact m) = currentSdkMessage m.
Proof.
  unfold currentSdkMessage, attachment_branch, redact. simpl.
  destruct (data m) as [d|]; simpl; [|reflexivity].
  assert (Hu : truthy_opt (if truthy_opt (fileDataUrl d)
                           then Some (lit "data:") else None)
               = truthy_opt (fileDataUrl d)).
  { destruct (truthy_opt (fileDataUrl d)); reflexivity. }
  rewrite Hu.
  destruct (role_eqb (role m) user && truthy_opt (fileDataUrl d)
            && truthy_opt (fileName d)); [|reflexivity].
  destruct (is_image d); reflexivity.
Qed.

End RedactFacts.

(** X12. The bytes of an attachment never reach the upstream: the
    messages sent upstream are the same when every attachment is replaced
    by a record that keeps only its file name and whether it has a data
    URL, dropping the data URL's content and the media type. *)
Theorem attachment_bytes_not_forwarded (clientMessages : list ClientMessage) :
  preparedMessages (map redact clientMessages) = preparedMessages clientMessages.
Proof.
  rewrite !preparedMessages_eq. f_equal.
  induction clientMessages as [|m ms IH]; simpl; [reflexivity|].
  rewrite redact_kept. destruct (kept m); simpl.
  - rewrite redact_currentSdkMessage, IH. reflexivity.
  - exact IH.
Qed.

(** X13. Normalising a conversation that has grown extends the
    normalisation of its earlier part: the messages for [earlier ++ newer]
    are those for [earlier] followed by those for [newer] without their
    system message. *)
Theorem preparedMessages_app (earlier newer : list ClientMessage) :
  preparedMessages (earlier ++ newer) =
  preparedMessages earlier ++ tl (preparedMessages newer).
Proof.
  rewrite !preparedMessages_eq. simpl.
  rewrite filter_app, map_app. reflexivity.
Qed.

(** X14. The handler does not require that any message says something:
    a non-empty [messages] array whose messages all have neither content
    nor attachment passes the validation, and the completion request is
    issued with the system message alone. *)
Theorem empty_turns_still_requested (apiKey : option jsstring)
    (before : list Event) (ms : list ClientMessage) :
  phase (run (POST apiKey) before) = AwaitingBody ->
  ms <> [] ->
  forallb skipped ms = true ->
  let s := run (POST apiKey)
             (before ++ [BodySettled (Resolved (BodyValue (IsArray ms)))]) in
  phase s = AwaitingUpstream /\
  map messages (upstream_requests s) = [[system_message]] /\
  response s = None.
Proof.
  intros Hph Hms Hall. cbv zeta.
  pose proof (Inv_run apiKey before) as I.
  rewrite run_app. set (s0 := run (POST apiKey) before) in *.
  change (run s0 [BodySettled (Resolved (BodyValue (IsArray ms)))])
    with (step s0 (BodySettled (Resolved (BodyValue (IsArray ms))))).
  rewrite (valid_body_step s0 ms Hph Hms). simpl.
  destruct (inv_await s0 I (or_introl Hph)) as (_ & _ & Hr & _).
  rewrite (inv_body s0 I Hph). simpl.
  split; [reflexivity|]. split; [|exact Hr].
  rewrite preparedMessages_eq. do 2 f_equal.
  clear -Hall. induction ms as [|m ms IH]; [reflexivity|].
  simpl in Hall. apply andb_true_iff in Hall as [Hm Hall].
  simpl. rewrite skipped_kept in Hm. apply negb_true_iff in Hm.
  rewrite Hm. apply IH. exact Hall.
Qed.

Lemma empty_turns_still_requested_witness :
  let s := run (POST key)
             (received ++
              [BodySettled (Resolved (BodyValue (IsArray [empty_turn])))]) in
  phase (run (POST key) received) = AwaitingBody /\
  phase s = AwaitingUpstream /\
  map messages (upstream_requests s) = [[system_message]].
Proof.
  destruct (empty_turns_still_requested key received [empty_turn]
              eq_refl ltac:(discriminate) eq_refl) as (H1 & H2 & _).
  split; [reflexivity|]. split; [exact H1 | exact H2].
Defined.

(* ===================================================================== *)
(** ** The input form and the page *)
(* ===================================================================== *)

Import ChatInput.

(** X15. The three guards of the input form agree.  [onSubmit] passes
    the selected file on to [handleSubmit], the send button is enabled,
    and Enter (without Shift, in a form) requests a submit under one and
    the same condition: the form is not loading, and the input has a
    character that is not white space or a file is selected.  So an input
    of white space only, without a file, can never be submitted. *)
Theorem submit_guards_agree (input : jsstring) (selectedFile : option File)
    (isLoading : bool) :
  let can := (has_text input || has_file selectedFile) && negb isLoading in
  onSubmit input selectedFile isLoading =
    (if can then Some selectedFile else None) /\
  send_disabled input selectedFile isLoading = negb can /\
  onKeyDown (lit "Enter") false input selectedFile isLoading true = can /\
  (forall key shiftKey has_form,
     onKeyDown key shiftKey input selectedFile isLoading has_form = true ->
     onSubmit input selectedFile isLoading = Some selectedFile).
Proof.
  cbv zeta. unfold onSubmit, send_disabled, onKeyDown.
  rewrite trim_truthy.
  change (str_eqb (lit "Enter") (lit "Enter")) with true.
  destruct (has_text input), (has_file selectedFile), isLoading; simpl;
    repeat split; intros key shiftKey has_form;
    destruct (str_eqb key (lit "Enter") && negb shiftKey); simpl;
    congruence.
Qed.

Lemma submit_guards_agree_witness :
  onKeyDown (lit "Enter") false (lit " hi ") None false true = true /\
  onSubmit (lit " hi ") None false = Some None /\
  onSubmit (lit "   ") None false = None.
Proof.
  destruct (submit_guards_agree (lit " hi ") None false) as (_ & _ & H3 & H4).
  destruct (submit_guards_agree (lit "   ") None false) as (H1 & _).
  split; [exact H3|]. split; [|exact H1].
  apply (H4 (lit "Enter") false true). exact H3.
Defined.

Import Page.

Section StorageFacts.

Lemma getItem_setItem_same (k v : jsstring) (ls : Storage) :
  getItem k (setItem k v ls) = Some v.
Proof.
  assert (Hk : str_eqb k k = true) by (apply str_eqb_eq; reflexivity).
  induction ls as [|[k' v'] rest IH]; simpl.
  - rewrite Hk. reflexivity.
  - destruct (str_eqb k' k) eqn:E; simpl.
    + rewrite Hk. reflexivity.
    + rewrite E. exact IH.
Qed.

Lemma getItem_setItem_other (k k' v : jsstring) (ls : Storage) :
  k <> k' -> getItem k' (setItem k v ls) = getItem k' ls.
Proof.
  intros Hne.
  assert (Hk : str_eqb k k' = false).
  { destruct (str_eqb k k') eqn:E; [|reflexivity].
    apply str_eqb_eq in E. congruence. }
  induction ls as [|[k0 v0] rest IH]; simpl.
  - rewrite Hk. reflexivity.
  - destruct (str_eqb k0 k) eqn:E; simpl.
    + apply str_eqb_eq in E. subst k0. rewrite Hk. reflexivity.
    + destruct (str_eqb k0 k'); [reflexivity | exact IH].
Qed.

Lemma keys_differ : USERNAME_KEY <> AUTH_KEY.
Proof. discriminate. Qed.

(** What the storage holds after [AUTH_KEY] and then [USERNAME_KEY] have
    been written. *)
Lemma stored_after_login (u : jsstring) (ls : Storage) :
  let ls' := setItem USERNAME_KEY u (setItem AUTH_KEY (lit "true") ls) in
  getItem AUTH_KEY ls' = Some (lit "true") /\
  getItem USERNAME_KEY ls' = Some u.
Proof.
  cbv zeta. split.
  - rewrite getItem_setItem_other by apply keys_differ.
    apply getItem_setItem_same.
  - apply getItem_setItem_same.
Qed.

Lemma opt_or_truthy (a : option jsstring) (b : jsstring) :
  truthy b = true -> truthy (opt_or a b) = true.
Proof.
  intros Hb. destruct a as [s|]; simpl; [|exact Hb].
  unfold or_else. destruct (truthy s) eqn:Hs; assumption.
Qed.

Lemma opt_or_stored (s : jsstring) (b : jsstring) :
  truthy s = true -> opt_or (Some s) b = s.
Proof. intros H. simpl. unfold or_else. rewrite H. reflexivity. Qed.

Lemma defaultUsername_truthy (env : Env) :
  truthy (defaultUsernameFromEnv env) = true.
Proof. apply opt_or_truthy. reflexivity. Qed.

(** The first branch of the mount effect. *)
Lemma mount_effect_stored (env : Env) (st : PageState) (ls : Storage)
    (u : jsstring) :
  getItem AUTH_KEY ls = Some (lit "true") ->
  getItem USERNAME_KEY ls = Some u -> truthy u = true ->
  mount_effect env st ls =
  ({| mounted := true; isAuthenticated := true; currentUsername := u;
      selectedFile := selectedFile st |}, ls).
Proof.
  intros Ha Hu Ht. unfold mount_effect. rewrite Ha, Hu. simpl.
  rewrite Ht. simpl. unfold or_else. rewrite Ht. reflexivity.
Qed.

End StorageFacts.

(** X16. A successful authentication is remembered: after
    [handleAuthenticationSuccess] with a non-empty user name, a page that
    is loaded afresh starts with that name, its mount effect authenticates
    the user under that name without writing to the storage, and the chat
    is shown, whatever the password setting.  An empty user name is not
    remembered: with a password configured the fresh page shows the gate
    again. *)
Theorem authentication_is_remembered (env : Env) (username : jsstring)
    (st : PageState) (ls : Storage) :
  let ls1 := snd (handleAuthenticationSuccess username st ls) in
  let fresh := initial true env ls1 in
  let after := mount_effect env fresh ls1 in
  (truthy username = true ->
   currentUsername fresh = username /\
   isAuthenticated (fst after) = true /\
   currentUsername (fst after) = username /\
   view env (fst after) = Chat /\
   snd after = ls1) /\
  (username = [] -> truthy_opt (appPassword env) = true ->
   isAuthenticated (fst after) = false /\ view env (fst after) = Gate).
Proof.
  cbv zeta. unfold handleAuthenticationSuccess. simpl snd.
  destruct (stored_after_login username ls) as [Ha Hu]. cbv zeta in Ha, Hu.
  set (ls1 := setItem USERNAME_KEY username
                (setItem AUTH_KEY (lit "true") ls)) in *.
  split.
  - intros Ht.
    rewrite (mount_effect_stored env _ ls1 username Ha Hu Ht).
    unfold initial. simpl. rewrite Hu.
    rewrite (opt_or_stored username _ Ht). repeat split.
    unfold view. simpl. rewrite andb_false_r. reflexivity.
  - intros -> Hpw. unfold mount_effect. rewrite Ha, Hu. simpl.
    rewrite Hpw. simpl. unfold view. simpl. rewrite Hpw. auto.
Qed.

Lemma authentication_is_remembered_witness :
  let ls1 := snd (handleAuthenticationSuccess (lit "Yakub")
                    (initial true with_password []) []) in
  let after := mount_effect with_password (initial true with_password ls1) ls1 in
  isAuthenticated (fst after) = true /\
  currentUsername (fst after) = lit "Yakub" /\
  view with_password (fst after) = Chat.
Proof.
  destruct (authentication_is_remembered with_password (lit "Yakub")
              (initial true with_password []) []) as [H _].
  destruct (H eq_refl) as (_ & H1 & H2 & H3 & _).
  split; [exact H1|]. split; [exact H2 | exact H3].
Defined.

(** X17. Without a password the mount effect always lets the user in,
    and leaves the storage saying so: afterwards the user is
    authenticated, the chat is shown, [AUTH_KEY] holds "true" and
    [USERNAME_KEY] holds the non-empty name that is displayed. *)
Theorem no_password_always_authenticated (env : Env) (st : PageState)
    (ls : Storage) :
  truthy_opt (appPassword env) = false ->
  let after := mount_effect env st ls in
  isAuthenticated (fst after) = true /\
  view env (fst after) = Chat /\
  getItem AUTH_KEY (snd after) = Some (lit "true") /\
  getItem USERNAME_KEY (snd after) = Some (currentUsername (fst after)) /\
  truthy (currentUsername (fst after)) = true.
Proof.
  intros Hpw. cbv zeta. unfold mount_effect.
  destruct (is_true_string (getItem AUTH_KEY ls)
            && truthy_opt (getItem USERNAME_KEY ls)) eqn:Hstored.
  - apply andb_true_iff in Hstored as [Ha Hu].
    destruct (getItem AUTH_KEY ls) as [a|] eqn:Ea; [|discriminate].
    simpl in Ha. apply str_eqb_eq in Ha. subst a.
    destruct (getItem USERNAME_KEY ls) as [u|] eqn:Eu; [|discriminate].
    simpl in Hu. simpl fst. simpl snd.
    unfold view. simpl. rewrite andb_false_r.
    rewrite Ea, Eu. unfold or_else. rewrite Hu. auto.
  - rewrite Hpw. simpl negb. cbv iota. simpl fst. simpl snd.
    set (name := opt_or (getItem USERNAME_KEY ls) (defaultUsernameFromEnv env)).
    destruct (stored_after_login name ls) as [Ha Hu]. cbv zeta in Ha, Hu.
    unfold view. simpl. rewrite andb_false_r.
    repeat split; auto.
    apply opt_or_truthy, defaultUsername_truthy.
Qed.

Lemma no_password_always_authenticated_witness :
  let after := mount_effect no_password (initial true no_password []) [] in
  isAuthenticated (fst after) = true /\
  currentUsername (fst after) = lit "Yakub" /\
  getItem USERNAME_KEY (snd after) = Some (lit "Yakub").
Proof.
  destruct (no_password_always_authenticated no_password
              (initial true no_password []) [] eq_refl)
    as (H1 & _ & _ & H4 & _).
  split; [exact H1|]. split; [reflexivity | exact H4].
Defined.

(** X18. The mount effect is idempotent: run a second time, on the state
    and the storage the first run left, it changes neither. *)
Theorem mount_effect_idempotent (env : Env) (st : PageState) (ls : Storage) :
  let after := mount_effect env st ls in
  mount_effect env (fst after) (snd after) = after.
Proof.
  cbv zeta. unfold mount_effect at 2 3 4.
  destruct (is_true_string (getItem AUTH_KEY ls)
            && truthy_opt (getItem USERNAME_KEY ls)) eqn:Hstored.
  - apply andb_true_iff in Hstored as [Ha Hu].
    destruct (getItem AUTH_KEY ls) as [a|] eqn:Ea; [|discriminate].
    simpl in Ha. apply str_eqb_eq in Ha. subst a.
    destruct (getItem USERNAME_KEY ls) as [u|] eqn:Eu; [|discriminate].
    simpl in Hu. simpl fst. simpl snd.
    rewrite (mount_effect_stored env _ ls u Ea Eu Hu).
    simpl. unfold or_else. rewrite Hu. reflexivity.
  - destruct (negb (truthy_opt (appPassword env))) eqn:Hpw.
    + simpl fst. simpl snd.
      set (name := opt_or (getItem USERNAME_KEY ls) (defaultUsernameFromEnv env)).
      destruct (stored_after_login name ls) as [Ha Hu]. cbv zeta in Ha, Hu.
      assert (Ht : truthy name = true)
        by (apply opt_or_truthy, defaultUsername_truthy).
      rewrite (mount_effect_stored env _ _ name Ha Hu Ht). reflexivity.
    + simpl fst. simpl snd. unfold mount_effect.
      rewrite Hstored, Hpw. reflexivity.
Qed.

(** X19. What a fresh page shows once mounted: the gate exactly when a
    password is configured and the storage does not hold "true" under
    [AUTH_KEY] together with a non-empty user name; otherwise the chat.
    When the gate is shown the storage is left untouched and the input
    form is held in its loading state. *)
Theorem gate_shown_iff (env : Env) (ls : Storage) (isChatLoading : bool) :
  let remembered := is_true_string (getItem AUTH_KEY ls)
                    && truthy_opt (getItem USERNAME_KEY ls) in
  let after := mount_effect env (initial true env ls) ls in
  view env (initial true env ls) = Loading /\
  view env (fst after) =
    (if truthy_opt (appPassword env) && negb remembered then Gate else Chat) /\
  (view env (fst after) = Gate ->
   snd after = ls /\ input_isLoading env (fst after) isChatLoading = true).
Proof.
  cbv zeta. split; [reflexivity|].
  unfold mount_effect.
  destruct (is_true_string (getItem AUTH_KEY ls)
            && truthy_opt (getItem USERNAME_KEY ls)).
  - unfold view. simpl. rewrite !andb_false_r. split; [reflexivity|].
    discriminate.
  - destruct (truthy_opt (appPassword env)) eqn:Hpw; simpl.
    + unfold view, input_isLoading. simpl. rewrite Hpw. simpl. auto.
    + unfold view. simpl. rewrite Hpw. simpl. split; [reflexivity|].
      discriminate.
Qed.

Lemma gate_shown_iff_witness :
  let after := mount_effect with_password (initial true with_password []) [] in
  view with_password (fst after) = Gate /\
  snd after = [] /\
  input_isLoading with_password (fst after) false = true.
Proof.
  destruct (gate_shown_iff with_password [] false) as (_ & H2 & H3).
  split; [exact H2|]. apply H3. exact H2.
Defined.

(** X20. What the page submits for a selected file.  If the file cannot
    be read, nothing is submitted and the selection is kept.  If it can,
    the hook is called with a payload holding the data URL and the file's
    name and type, and the selection is cleared; and when the file has a
    name and this payload is the [data] of a user message, the route
    acknowledges the attachment by that name, whatever the text. *)
Theorem file_payload_is_acknowledged
    (fileToDataURL : File -> Result jsstring) (f : File) (st : PageState) :
  (forall e, fileToDataURL f = Throw e ->
     handleFormSubmitWithFile fileToDataURL (Some f) st = (NotSubmitted, st)) /\
  (forall dataUrl, fileToDataURL f = Ok dataUrl ->
     exists d,
       handleFormSubmitWithFile fileToDataURL (Some f) st =
         (HookSubmit (Some d),
          {| mounted := mounted st; isAuthenticated := isAuthenticated st;
             currentUsername := currentUsername st; selectedFile := None |}) /\
       fileDataUrl d = Some dataUrl /\
       fileName d = Some (file_name f) /\
       fileType d = Some (file_type f) /\
       (truthy dataUrl = true -> truthy (file_name f) = true ->
        forall text,
          includes
            (sdk_content
               (currentSdkMessage
                  {| role := user; content := text; data := Some d |}))
            (file_name f) = true)).
Proof.
  split.
  - intros e He. unfold handleFormSubmitWithFile. rewrite He. reflexivity.
  - intros dataUrl Hok. unfold handleFormSubmitWithFile. rewrite Hok.
    eexists. split; [reflexivity|]. simpl. repeat split.
    intros Hu Hn text.
    apply (attachment_branch_names_file
             {| role := user; content := text;
                data := Some {| fileDataUrl := Some dataUrl;
                                fileName := Some (file_name f);
                                fileType := Some (file_type f) |} |}
             _ (file_name f) eq_refl eq_refl Hu eq_refl Hn).
Qed.

Lemma file_payload_is_acknowledged_witness :
  exists d,
    fst (handleFormSubmitWithFile read_ok (Some photo)
           (initial true no_password [])) = HookSubmit (Some d) /\
    includes
      (sdk_content
         (currentSdkMessage
            {| role := user; content := lit "Look"; data := Some d |}))
      (lit "cat.png") = true.
Proof.
  destruct (file_payload_is_acknowledged read_ok photo
              (initial true no_password [])) as [_ H].
  destruct (H _ eq_refl) as (d & E & _ & _ & _ & Hi).
  exists d. split.
  - rewrite E. reflexivity.
  - apply (Hi eq_refl eq_refl).
Defined.
